(** * LogCast server: a shallow embedding of [server.py]

    The server runs four kinds of threads over one shared set of client
    sockets: the accept loop ([start_server]), one receiver per connection
    ([handle_client]), the heartbeat ([send_keep_alive]) and the log tail
    monitor ([watch_log_file_by_inode]).  Each thread body is embedded as a
    program in a small monad that threads the process state, records the
    operations the thread performs, and propagates Python exceptions.
    Everything the operating system decides (whether a send fails, what the
    watched path names, what a peer does) is an explicit input. *)

From Stdlib Require Import String Ascii.
From stdpp Require Import base gmap sets list strings.

Open Scope N_scope.
Open Scope nat_scope.

#[local] Set Warnings "-clear-no-such-hyp".

(** ** Text *)

(** A Python [str] is a sequence of Unicode code points. *)
Definition str := list N.

Definition u (s : string) : str := map N_of_ascii (list_ascii_of_string s).

(** [str.isspace] on one code point: the characters [str.strip()] removes. *)
Definition isspace (c : N) : bool :=
  ((9 <=? c) && (c <=? 13) || (28 <=? c) && (c <=? 32)
   || (c =? 133) || (c =? 160) || (c =? 5760)
   || (8192 <=? c) && (c <=? 8202)
   || (c =? 8232) || (c =? 8233) || (c =? 8239) || (c =? 8287)
   || (c =? 12288))%N.

Fixpoint lstrip (l : str) : str :=
  match l with
  | c :: l' => if isspace c then lstrip l' else l
  | [] => []
  end.

Definition rstrip (l : str) : str := rev (lstrip (rev l)).

(** [line.strip()] *)
Definition strip (l : str) : str := rstrip (lstrip l).

Fixpoint startswith (k l : str) : bool :=
  match k, l with
  | [], _ => true
  | a :: k', b :: l' => (a =? b)%N && startswith k' l'
  | _ :: _, [] => false
  end.

(** [keyword in line]: substring test on code points, no case folding. *)
Fixpoint contains (k l : str) : bool :=
  startswith k l || match l with [] => false | _ :: l' => contains k l' end.

(** The part of [text] that one [readline()] returns: up to and including
    the first newline, or everything when there is none.  [text] is what
    the text layer of the file object yields: decoded, and with line ends
    already translated to ["\n"]. *)
Fixpoint take_line (text : str) : str :=
  match text with
  | [] => []
  | c :: t => if (c =? 10)%N then [c] else c :: take_line t
  end.

(** ** Exceptions *)

Inductive exn :=
| OSError               (* [socket.error] is an alias of [OSError] *)
| BrokenPipeError
| ConnectionResetError
| TimeoutError
| FileNotFoundError
| PermissionError
| SSLError              (* [ssl.SSLError], a subclass of [OSError] *)
| KeyError
| ValueError
| UnicodeDecodeError
| AttributeError
| UnboundLocalError
| RuntimeError
| KeyboardInterrupt.

(** The class tests used by the [except] clauses of the source. *)
Definition is_socket_error (e : exn) : bool :=
  match e with
  | OSError | BrokenPipeError | ConnectionResetError | TimeoutError
  | FileNotFoundError | PermissionError | SSLError => true
  | _ => false
  end.

Definition is_BrokenPipeError (e : exn) : bool :=
  match e with BrokenPipeError => true | _ => false end.

Definition is_ConnectionResetError (e : exn) : bool :=
  match e with ConnectionResetError => true | _ => false end.

Definition is_SSLError (e : exn) : bool :=
  match e with SSLError => true | _ => false end.

Definition is_Exception (e : exn) : bool :=
  match e with KeyboardInterrupt => false | _ => true end.

Definition is_KeyboardInterrupt (e : exn) : bool :=
  match e with KeyboardInterrupt => true | _ => false end.

(** [except (socket.error, BrokenPipeError, ConnectionResetError)] *)
Definition is_transport_error (e : exn) : bool :=
  is_socket_error e || is_BrokenPipeError e || is_ConnectionResetError e.

(** ** Process state *)

Definition conn := nat.      (* an [SSLSocket] object *)
Definition rawsock := nat.   (* the socket returned by [accept()] *)
Definition inode := N.

(** A Python file object of the monitor. *)
Record file_obj := FileObj {
  f_ino : inode;      (* the file the descriptor is bound to *)
  f_pos : nat;        (* read position *)
  f_closed : bool     (* [file_handle.closed] *)
}.

Record sys := Sys {
  clients : gset conn;             (* the module-level [clients] set *)
  closed : gset conn;              (* sockets on which [close()] was called *)
  path_ino : option inode;         (* the file [file_path] names now *)
  files : gmap inode str;          (* text of every file, by inode *)
  current_inode : option inode;    (* local of [watch_log_file_by_inode] *)
  file_handle : option file_obj    (* local of [watch_log_file_by_inode] *)
}.

Definition set_clients (f : gset conn → gset conn) (s : sys) : sys :=
  Sys (f (clients s)) (closed s) (path_ino s) (files s)
      (current_inode s) (file_handle s).
Definition set_closed (f : gset conn → gset conn) (s : sys) : sys :=
  Sys (clients s) (f (closed s)) (path_ino s) (files s)
      (current_inode s) (file_handle s).
Definition set_path_ino (p : option inode) (s : sys) : sys :=
  Sys (clients s) (closed s) p (files s) (current_inode s) (file_handle s).
Definition set_files (f : gmap inode str → gmap inode str) (s : sys) : sys :=
  Sys (clients s) (closed s) (path_ino s) (f (files s))
      (current_inode s) (file_handle s).
Definition set_current_inode (i : option inode) (s : sys) : sys :=
  Sys (clients s) (closed s) (path_ino s) (files s) i (file_handle s).
Definition set_file_handle (h : option file_obj) (s : sys) : sys :=
  Sys (clients s) (closed s) (path_ino s) (files s) (current_inode s) h.

(** Text of the file with inode [i] ([[]] when nothing was written). *)
Definition content (s : sys) (i : inode) : str := default [] (files s !! i).

(** ** Operations a thread performs *)

Inductive lock :=
| client_lock       (* the module-level [threading.Lock()] *)
| anonymous_lock.   (* a lock built in place by [with threading.Lock():] *)

Inductive level := INFO | WARNING | ERROR.

Inductive event :=
| Log (lvl : level)
| Sleep (secs : nat)
| Acquire (l : lock)
| Release (l : lock)
| RegIter                         (* [list(clients)] *)
| RegTest (c : conn)              (* [c in clients] *)
| RegAdd (c : conn)
| RegRemove (c : conn)
| Send (c : conn) (payload : str)
| Recv (c : conn)
| CloseConn (c : conn)
| Accept (r : rawsock)
| CloseRaw (r : rawsock)
| StartThread
| StartReceiver (c : conn)
| CloseListener
| OpenFile (i : inode)
| CloseFile (i : inode)
| SeekEnd (i : inode) (pos : nat)
| ReadLine (i : inode) (pos : nat) (line : str).

(** ** The monad *)

(** How a computation ends.  [Pending] is a thread that is still inside a
    blocking call or an endless loop when the supplied inputs run out. *)
Inductive outcome (A : Type) :=
| Return (a : A)
| Raise (e : exn)
| Pending.
Arguments Return {A} a.
Arguments Raise {A} e.
Arguments Pending {A}.

Record run (A : Type) := Run {
  res : outcome A;        (* how it ended *)
  post : sys;             (* the state it left *)
  out : list event        (* what it did, oldest first *)
}.
Arguments Run {A} res post out.
Arguments res {A} r.
Arguments post {A} r.
Arguments out {A} r.

Definition M (A : Type) := sys → run A.

Definition ret {A} (a : A) : M A := λ s, Run (Return a) s [].

Definition bind {A B} (m : M A) (k : A → M B) : M B :=
  λ s,
    let r := m s in
    match res r with
    | Return a => let r' := k a (post r) in
                  Run (res r') (post r') (out r ++ out r')
    | Raise e => Run (Raise e) (post r) (out r)
    | Pending => Run Pending (post r) (out r)
    end.

#[global] Instance M_ret : MRet M := @ret.
#[global] Instance M_bind : MBind M := λ A B k m, bind m k.

Definition raise {A} (e : exn) : M A := λ s, Run (Raise e) s [].
Definition pending {A} : M A := λ s, Run Pending s [].
Definition emit (e : event) : M unit := λ s, Run (Return tt) s [e].
Definition get : M sys := λ s, Run (Return s) s [].
Definition modify (f : sys → sys) : M unit := λ s, Run (Return tt) (f s) [].

(** [try: body / except C1: h1 / except C2: h2 ...]: the first clause whose
    class test accepts the exception handles it; an exception raised by a
    handler is not offered to the later clauses. *)
Definition clause (A : Type) : Type := (exn → bool) * (exn → M A).

Fixpoint dispatch {A} (cs : list (clause A)) (e : exn) : M A :=
  match cs with
  | [] => raise e
  | (test, h) :: cs' => if test e then h e else dispatch cs' e
  end.

Definition try_except {A} (body : M A) (cs : list (clause A)) : M A :=
  λ s,
    let r := body s in
    match res r with
    | Raise e => let r' := dispatch cs e (post r) in
                 Run (res r') (post r') (out r ++ out r')
    | _ => r
    end.

(** [try: body / finally: fin] *)
Definition try_finally {A} (body : M A) (fin : M unit) : M A :=
  λ s,
    let r := body s in
    match res r with
    | Pending => r
    | o => let r' := fin (post r) in
           Run (match res r' with Return _ => o | Raise e => Raise e
                                  | Pending => Pending end)
               (post r') (out r ++ out r')
    end.

(** [with l: body] *)
Definition with_lock {A} (l : lock) (body : M A) : M A :=
  emit (Acquire l) ;; try_finally body (emit (Release l)).

(** [for x in xs: body x] *)
Fixpoint for_each {X} (xs : list X) (body : X → M unit) : M unit :=
  match xs with
  | [] => ret tt
  | x :: xs' => body x ;; for_each xs' body
  end.

(** [while True: body], one input per iteration; [true] from the body is a
    [break].  When the inputs run out the loop is still running. *)
Fixpoint while_true {E} (envs : list E) (body : E → M bool) : M unit :=
  match envs with
  | [] => pending
  | e :: es => b ← body e ; if b : bool then ret tt else while_true es body
  end.

Definition logging (lvl : level) : M unit := emit (Log lvl).
Definition sleep (secs : nat) : M unit := emit (Sleep secs).

(** ** Configuration *)

Record config := Config {
  log_keyword : str;
  keep_alive_interval : nat;
  monitor_poll_interval : nat
}.

(** The defaults of [CONFIG] (no environment variable set). *)
Definition default_config : config := Config (u "LoggedIn") 2 1.

(** ** The client registry *)

(** [clients.add(c)] *)
Definition clients_add (c : conn) : M unit :=
  emit (RegAdd c) ;; modify (set_clients (λ cs, {[c]} ∪ cs)).

(** [clients.remove(c)]: [set.remove] raises [KeyError] on a non-member. *)
Definition clients_remove (c : conn) : M unit :=
  s ← get ;
  if decide (c ∈ clients s)
  then emit (RegRemove c) ;; modify (set_clients (λ cs, cs ∖ {[c]}))
  else raise KeyError.

(** [list(clients)] *)
Definition clients_list : M (list conn) :=
  emit RegIter ;; s ← get ; mret (elements (clients s)).

(** [c in clients] *)
Definition clients_mem (c : conn) : M bool :=
  emit (RegTest c) ;; s ← get ; mret (bool_decide (c ∈ clients s)).

(** ** Sockets *)

(** What the network does to one fan-out pass. *)
Record net_env := NetEnv {
  send_exn : conn → option exn;       (* what [sendall] raises, if anything *)
  peername_exn : conn → option exn;   (* what [getpeername] raises, if anything *)
  departs : conn → bool               (* the receiver of this connection ends
                                         (its [finally] block runs) after the
                                         snapshot and before the send *)
}.

Definition sendall (env : net_env) (c : conn) (msg : str) : M unit :=
  emit (Send c msg) ;;
  match send_exn env c with Some e => raise e | None => mret tt end.

Definition getpeername (fault : option exn) : M unit :=
  match fault with Some e => raise e | None => mret tt end.

(** [c.close()] *)
Definition conn_close (c : conn) : M unit :=
  emit (CloseConn c) ;; modify (set_closed (λ cs, {[c]} ∪ cs)).

(** The effect, on the shared state, of the [finally] block of the receiver
    of [c] running in its own thread: [handle_client] takes no lock that
    another thread holds, so this can happen inside a fan-out pass. *)
Definition receiver_departs (env_departs : conn → bool) (c : conn) : M unit :=
  if env_departs c
  then modify (λ s, set_closed (λ cs, {[c]} ∪ cs)
                      (set_clients (λ cs, cs ∖ {[c]}) s))
  else mret tt.

(** ** Fan-out: the loop body shared by lines 52-60 and lines 93-102 *)

Definition send_or_prune (env : net_env) (msg : str) (c : conn) : M unit :=
  try_except (sendall env c msg)
    [ (is_transport_error,
       λ _, getpeername (peername_exn env c) ;; logging WARNING ;;
            clients_remove c ;; conn_close c);
      (is_Exception,
       λ _, getpeername (peername_exn env c) ;; logging ERROR) ].

(** One iteration of the loop, preceded by what the receiver of the client
    may do meanwhile. *)
Definition pass_body (env : net_env) (msg : str) (c : conn) : M unit :=
  receiver_departs (departs env) c ;; send_or_prune env msg c.

(** [with client_lock: for client_socket in list(clients): ...] *)
Definition fan_out (env : net_env) (msg : str) : M unit :=
  with_lock client_lock
    (snapshot ← clients_list ;
     for_each snapshot (pass_body env msg)).

(** ** Heartbeat *)

Definition keep_alive_message : str := u "keep-alive".

(** Lines 50-61; the payload of a [Send] is the text whose UTF-8 encoding
    is sent. *)
Definition send_keep_alive (CONFIG : config) (envs : list net_env) : M unit :=
  while_true envs
    (λ env, fan_out env keep_alive_message ;;
            sleep (keep_alive_interval CONFIG) ;; mret false).

(** ** The watched file *)

(** What other processes do to the watched path and to the files. *)
Inductive fs_op :=
| Append (i : inode) (text : str)   (* a writer appends to the file *)
| Rotate (i : inode)                (* the path now names the file [i] *)
| Unlink.                           (* the path names nothing *)

Definition apply_op (s : sys) (o : fs_op) : sys :=
  match o with
  | Append i text => set_files (λ fs, <[i := content s i ++ text]> fs) s
  | Rotate i => set_path_ino (Some i) s
  | Unlink => set_path_ino None s
  end.

Definition other_processes (ops : list fs_op) : M unit :=
  modify (λ s, foldl apply_op s ops).

(** What the file system does during one iteration of the monitor. *)
Record tick_env := TickEnv {
  fs_before_exists : list fs_op;
  fs_before_stat : list fs_op;
  fs_before_open : list fs_op;
  fs_before_seek : list fs_op;
  fs_before_read : list fs_op;
  stat_fault : option exn;
  open_fault : option exn;
  read_fault : option exn;
  net : net_env
}.

(** [os.path.exists(file_path)] *)
Definition os_path_exists : M bool :=
  s ← get ; mret (match path_ino s with Some _ => true | None => false end).

(** [os.stat(file_path).st_ino] *)
Definition os_stat (fault : option exn) : M inode :=
  match fault with
  | Some e => raise e
  | None => s ← get ;
            match path_ino s with
            | Some i => mret i
            | None => raise FileNotFoundError
            end
  end.

(** [open(file_path, "r")]: the new object is bound to whatever file the
    path names when [open] runs. *)
Definition open_file (fault : option exn) : M file_obj :=
  match fault with
  | Some e => raise e
  | None => s ← get ;
            match path_ino s with
            | Some i => emit (OpenFile i) ;; mret (FileObj i 0 false)
            | None => raise FileNotFoundError
            end
  end.

(** [file_handle.close()] *)
Definition file_close (h : file_obj) : M unit :=
  (if f_closed h then mret tt else emit (CloseFile (f_ino h))) ;;
  modify (set_file_handle (Some (FileObj (f_ino h) (f_pos h) true))).

(** [file_handle.seek(0, os.SEEK_END)] *)
Definition seek_end : M unit :=
  s ← get ;
  match file_handle s with
  | None => raise AttributeError
  | Some h =>
      if f_closed h then raise ValueError
      else
        let pos := length (content s (f_ino h)) in
        emit (SeekEnd (f_ino h) pos) ;;
        modify (set_file_handle (Some (FileObj (f_ino h) pos false)))
  end.

(** [file_handle.readline()] *)
Definition readline (fault : option exn) : M str :=
  s ← get ;
  match file_handle s with
  | None => raise AttributeError
  | Some h =>
      if f_closed h then raise ValueError
      else
        match fault with
        | Some e => raise e
        | None =>
            let line := take_line (drop (f_pos h) (content s (f_ino h))) in
            emit (ReadLine (f_ino h) (f_pos h) line) ;;
            modify (set_file_handle
                      (Some (FileObj (f_ino h) (f_pos h + length line) false))) ;;
            mret line
        end
  end.

(** ** Log tail monitor *)

Definition alert_prefix : str := u "Keyword alert: ".

(** Lines 80-83: open the file the path names, record the inode that
    [os.stat] returned, and seek to the end. *)
Definition open_at_end (env : tick_env) (st_ino : inode) : M unit :=
  other_processes (fs_before_open env) ;;
  h ← open_file (open_fault env) ;
  modify (set_file_handle (Some h)) ;;
  modify (set_current_inode (Some st_ino)) ;;
  logging INFO ;;
  other_processes (fs_before_seek env) ;;
  seek_end.

(** Lines 76-83: the (re)open block. *)
Definition reopen (env : tick_env) (st_ino : inode) : M unit :=
  s ← get ;
  match file_handle s with
  | Some h => logging INFO ;; file_close h
  | None => mret tt
  end ;;
  open_at_end env st_ino.

(** Lines 90-102: match the keyword and alert. *)
Definition alert (env : tick_env) (keyword line : str) : M unit :=
  if contains keyword line
  then logging INFO ;; fan_out (net env) (alert_prefix ++ strip line)
  else mret tt.

(** Lines 85-88: read one line.  [None] stands for the [continue] taken
    when [readline()] returns the empty string. *)
Definition read_one_line (CONFIG : config) (env : tick_env)
    : M (option str) :=
  other_processes (fs_before_read env) ;;
  line ← readline (read_fault env) ;
  match line with
  | [] => sleep (monitor_poll_interval CONFIG) ;; mret None
  | _ :: _ => mret (Some line)
  end.

(** Lines 69-88: (re)open the file when needed and read one line.  [None]
    stands for the two [continue] statements. *)
Definition next_line (CONFIG : config) (env : tick_env) : M (option str) :=
  other_processes (fs_before_exists env) ;;
  found ← os_path_exists ;
  if negb found
  then logging WARNING ;; sleep (monitor_poll_interval CONFIG) ;; mret None
  else
    other_processes (fs_before_stat env) ;;
    st_ino ← os_stat (stat_fault env) ;
    s ← get ;
    (if decide (current_inode s ≠ Some st_ino)
     then reopen env st_ino else mret tt) ;;
    read_one_line CONFIG env.

(** Lines 69-102: the body of the [try]. *)
Definition tick_body (CONFIG : config) (keyword : str) (env : tick_env)
    : M unit :=
  line ← next_line CONFIG env ;
  match line with
  | None => mret tt
  | Some line => alert env keyword line
  end.

(** Lines 108-110: the [finally] block. *)
Definition tick_finally : M unit :=
  s ← get ;
  match file_handle s with
  | Some h => if f_closed h then modify (set_current_inode None) else mret tt
  | None => mret tt
  end.

(** One iteration of the [while True] of the monitor, lines 68-110. *)
Definition tick (CONFIG : config) (keyword : str) (env : tick_env) : M unit :=
  try_finally
    (try_except (tick_body CONFIG keyword env)
       [ (is_Exception,
          λ _, logging ERROR ;; sleep (monitor_poll_interval CONFIG)) ])
    tick_finally.

Definition watch_log_file_by_inode (CONFIG : config) (keyword : str)
    (envs : list tick_env) : M unit :=
  modify (set_current_inode None) ;;
  modify (set_file_handle None) ;;
  while_true envs (λ env, tick CONFIG keyword env ;; mret false).

(** ** Per-connection receiver *)

Inductive recv_outcome :=
| Recvd (data : list N)      (* [recv] returned these bytes *)
| RecvRaises (e : exn).

(** Lines 118-122: one iteration of the receive loop. *)
Definition recv_step (c : conn) (r : recv_outcome) : M bool :=
  emit (Recv c) ;;
  match r with
  | RecvRaises e => raise e
  | Recvd [] => logging INFO ;; mret true
  | Recvd (_ :: _) => logging INFO ;; mret false
  end.

(** Lines 126-129: the [finally] block of [handle_client]. *)
Definition handle_client_finally (c : conn) : M unit :=
  with_lock anonymous_lock
    (member ← clients_mem c ;
     if member : bool then clients_remove c else mret tt) ;;
  conn_close c.

(** [peer_fault] is what the [getpeername()] of line 115 raises, if
    anything; when it raises, [peername] is never bound and the handler of
    line 124, which reads it, raises [UnboundLocalError]. *)
Definition handle_client (c : conn) (peer_fault : option exn)
    (recvs : list recv_outcome) : M unit :=
  try_finally
    (try_except
       (getpeername peer_fault ;; logging INFO ;;
        while_true recvs (recv_step c))
       [ (is_Exception,
          λ _, match peer_fault with
               | None => logging ERROR
               | Some _ => raise UnboundLocalError
               end) ])
    (handle_client_finally c).

(** ** Connection acceptor *)

Inductive handshake :=
| Established (c : conn)          (* [wrap_socket] returned [c] *)
| HandshakeRaises (e : exn).

Inductive accept_outcome :=
| Incoming (r : rawsock) (hs : handshake)
| AcceptRaises (e : exn).

Definition wrap_socket (hs : handshake) : M conn :=
  match hs with
  | Established c => mret c
  | HandshakeRaises e => raise e
  end.

(** Lines 148-158: one iteration of the accept loop. *)
Definition accept_step (a : accept_outcome) : M bool :=
  match a with
  | AcceptRaises e => raise e
  | Incoming r hs =>
      emit (Accept r) ;; logging INFO ;;
      try_except
        (secure_socket ← wrap_socket hs ;
         logging INFO ;;
         with_lock client_lock (clients_add secure_socket) ;;
         emit (StartReceiver secure_socket))
        [ (is_SSLError, λ _, logging ERROR ;; emit (CloseRaw r)) ] ;;
      mret false
  end.

(** Lines 161-167: the [finally] block of [start_server]. *)
Definition shutdown (env_departs : conn → bool) : M unit :=
  with_lock client_lock
    (snapshot ← clients_list ;
     for_each snapshot
       (λ c, receiver_departs env_departs c ;;
             conn_close c ;; clients_remove c)) ;;
  emit CloseListener ;;
  logging INFO.

(** Lines 141-167.  The set-up of lines 133-139 (socket, bind, listen,
    certificate) is outside every [try] and taken to have succeeded; the
    two [StartThread] are the heartbeat and the monitor. *)
Definition start_server (accepts : list accept_outcome)
    (env_departs : conn → bool) : M unit :=
  logging INFO ;;
  emit StartThread ;;
  emit StartThread ;;
  try_finally
    (try_except (while_true accepts accept_step)
       [ (is_KeyboardInterrupt, λ _, logging INFO) ])
    (shutdown env_departs).

(** ** Reading traces *)

(** The sends of a trace, oldest first. *)
Fixpoint sends (tr : list event) : list (conn * str) :=
  match tr with
  | [] => []
  | Send c p :: tr' => (c, p) :: sends tr'
  | _ :: tr' => sends tr'
  end.

(** The results of the [readline()] calls of a trace. *)
Fixpoint lines_read (tr : list event) : list str :=
  match tr with
  | [] => []
  | ReadLine _ _ l :: tr' => l :: lines_read tr'
  | _ :: tr' => lines_read tr'
  end.

(** The number of fan-out passes of a trace: snapshots of the registry. *)
Fixpoint passes (tr : list event) : nat :=
  match tr with
  | [] => 0
  | RegIter :: tr' => S (passes tr')
  | _ :: tr' => passes tr'
  end.

Definition registry_access (e : event) : bool :=
  match e with
  | RegIter | RegTest _ | RegAdd _ | RegRemove _ => true
  | _ => false
  end.

#[global] Instance lock_eq_dec : EqDecision lock.
Proof. solve_decision. Defined.

Fixpoint release (l : lock) (held : list lock) : list lock :=
  match held with
  | [] => []
  | l' :: held' => if decide (l = l') then held' else l' :: release l held'
  end.

(** A thread keeps the lock discipline of the registry when every access to
    [clients] in its trace happens while it holds [client_lock]. *)
Fixpoint lock_discipline (held : list lock) (tr : list event) : bool :=
  match tr with
  | [] => true
  | Acquire l :: tr' => lock_discipline (l :: held) tr'
  | Release l :: tr' => lock_discipline (release l held) tr'
  | e :: tr' =>
      (negb (registry_access e) || bool_decide (client_lock ∈ held))
      && lock_discipline held tr'
  end.

(** Every [readline()] of a trace reads the file bound by the latest
    (re)open, at or after the end-of-file offset that (re)open sought to;
    [last] is the file and offset of the latest [seek], if any. *)
Fixpoint reads_follow_seek (last : option (inode * nat)) (tr : list event)
    : bool :=
  match tr with
  | [] => true
  | OpenFile _ :: tr' => reads_follow_seek None tr'
  | SeekEnd i p :: tr' => reads_follow_seek (Some (i, p)) tr'
  | ReadLine i p _ :: tr' =>
      match last with
      | Some (j, q) => bool_decide (i = j) && bool_decide (q ≤ p)
                       && reads_follow_seek last tr'
      | None => false
      end
  | _ :: tr' => reads_follow_seek last tr'
  end.

(** The invariant of the watcher state: an open handle is bound to the
    file whose inode [current_inode] records. *)
Definition handle_matches_inode (s : sys) : bool :=
  match file_handle s with
  | Some h => f_closed h || bool_decide (current_inode s = Some (f_ino h))
  | None => true
  end.

(** ** Sample states and environments *)

Definition idle : sys := Sys ∅ ∅ None ∅ None None.

(** A network on which nothing fails and no receiver ends. *)
Definition calm : net_env := NetEnv (λ _, None) (λ _, None) (λ _, false).

(** A tick during which no other process touches the file system. *)
Definition still (ops : list fs_op) : tick_env :=
  TickEnv ops [] [] [] [] None None None calm.

(** * Vocabulary of the statements *)

(** [wp m s Q]: running [m] from [s] ends in a way, a state and a trace
    that satisfy [Q]. *)
Definition wp {A} (m : M A) (s : sys)
    (Q : outcome A → sys → list event → Prop) : Prop :=
  Q (res (m s)) (post (m s)) (out (m s)).

(** The send to [c] fails with an error of the first [except] clause. *)
Definition transport_failure (env : net_env) (c : conn) : bool :=
  match send_exn env c with
  | Some e => is_transport_error e
  | None => false
  end.

(** What one iteration of the fan-out loop does for [c] when its handler
    runs to its end. *)
Definition client_events (env : net_env) (msg : str) (c : conn) : list event :=
  Send c msg ::
  match send_exn env c with
  | None => []
  | Some e => if is_transport_error e
              then [Log WARNING; RegRemove c; CloseConn c]
              else [Log ERROR]
  end.

(** The state after [c] was pruned. *)
Definition prune (c : conn) (s : sys) : sys :=
  set_closed (λ cs, {[c]} ∪ cs) (set_clients (λ cs, cs ∖ {[c]}) s).

(** The state a pass leaves when every handler runs to its end. *)
Definition pass_state (env : net_env) (l : list conn) (s : sys) : sys :=
  foldl (λ s c, if transport_failure env c then prune c s else s) s l.

(** A pass in which a receiver ends between the snapshot and the send, and
    the send then fails: the prune of the first [except] clause finds the
    client gone. *)
Definition gone (c : conn) : net_env :=
  NetEnv (λ c', if decide (c' = c) then Some BrokenPipeError else None)
         (λ _, None)
         (λ c', bool_decide (c' = c)).

(** A network on which the sends to [2] fail with a broken pipe and the
    sends to [3] with an error that is not a transport error. *)
Definition flaky : net_env :=
  NetEnv (λ c, if decide (c = 2) then Some BrokenPipeError
               else if decide (c = 3) then Some ValueError else None)
         (λ _, None) (λ _, false).

Definition three_clients : sys := Sys {[1; 2; 3]} ∅ None ∅ None None.
Definition one_client : sys := Sys {[1]} ∅ None ∅ None None.

(** No receiver ends during the pass over the registry of [s], and every
    handler of the pass runs to its end: its [getpeername()] returns, and
    the exception it handles is an instance of [Exception]. *)
Definition undisturbed (env : net_env) (s : sys) : Prop :=
  ∀ c, c ∈ clients s →
       departs env c = false ∧ peername_exn env c = None ∧
       ∀ e, send_exn env c = Some e → is_Exception e = true.

(** The path is replaced between [os.stat] and [open]. *)
Definition raced : tick_env :=
  TickEnv [] [] [Rotate 2%N] [] [] None None None calm.

(** The watched path names the file with inode [1]. *)
Definition watching : sys := Sys ∅ ∅ (Some 1%N) ∅ None None.

(** An accepted connection after which the accept loop goes on. *)
Definition survivable (a : accept_outcome) : bool :=
  match a with
  | Incoming _ (Established _) => true
  | Incoming _ (HandshakeRaises e) => is_SSLError e
  | AcceptRaises _ => false
  end.

(** The connections the accept loop registers. *)
Fixpoint established (accepts : list accept_outcome) : list conn :=
  match accepts with
  | [] => []
  | Incoming _ (Established c) :: accepts' => c :: established accepts'
  | _ :: accepts' => established accepts'
  end.

Definition accept_events (a : accept_outcome) : list event :=
  match a with
  | Incoming r (Established c) =>
      [Accept r; Log INFO; Log INFO; Acquire client_lock; RegAdd c;
       Release client_lock; StartReceiver c]
  | Incoming r (HandshakeRaises _) =>
      [Accept r; Log INFO; Log ERROR; CloseRaw r]
  | AcceptRaises _ => []
  end.

Definition close_events (c : conn) : list event := [CloseConn c; RegRemove c].


(** A [recv] that returns data. *)
Definition delivers (r : recv_outcome) : bool :=
  match r with Recvd (_ :: _) => true | _ => false end.

(** What the [finally] block of the receiver of [c] does when the registry
    is [cs]: a removal only when [c] is a member, then the close. *)
Definition deregister_events (c : conn) (cs : gset conn) : list event :=
  [Acquire anonymous_lock; RegTest c]
  ++ (if bool_decide (c ∈ cs) then [RegRemove c] else [])
  ++ [Release anonymous_lock; CloseConn c].


(** The monitor's view of the file system and its locals. *)
Definition same_files (s s' : sys) : Prop :=
  path_ino s' = path_ino s ∧ files s' = files s ∧
  current_inode s' = current_inode s ∧ file_handle s' = file_handle s.

(** Events of sockets, registry and log, as opposed to locks and files. *)
Definition plain (e : event) : bool :=
  match e with
  | Acquire _ | Release _ | OpenFile _ | CloseFile _ | SeekEnd _ _
  | ReadLine _ _ _ => false
  | _ => true
  end.

(** The exceptions the network raises are all instances of [Exception]
    (a [KeyboardInterrupt] is only delivered to the main thread). *)
Definition benign_net (env : net_env) : Prop :=
  ∀ c e, send_exn env c = Some e ∨ peername_exn env c = Some e →
         is_Exception e = true.

(** A thread goes on after [o]: it returned, or raised an exception that
    [except Exception] catches. *)
Definition catchable {A} (o : outcome A) : Prop :=
  match o with
  | Return _ => True
  | Raise e => is_Exception e = true
  | Pending => False
  end.

(** What the path names after [ops], when it named [p] before. *)
Definition path_after (ops : list fs_op) (p : option inode) : option inode :=
  foldl (λ p o, match o with
                | Rotate i => Some i
                | Unlink => None
                | Append _ _ => p
                end) p ops.

(** What other processes can have done between [s] and [s']: the sockets,
    the registry and the locals of the monitor are the same, and every
    file has only grown at its end. *)
Definition drift (s s' : sys) : Prop :=
  clients s' = clients s ∧ closed s' = closed s ∧
  current_inode s' = current_inode s ∧ file_handle s' = file_handle s ∧
  ∀ i, ∃ more, content s' i = content s i ++ more.

(** What closing the previous handle, if any, adds to the trace. *)
Definition closing_events (old : option file_obj) : list event :=
  match old with
  | Some h => Log INFO :: if f_closed h then [] else [CloseFile (f_ino h)]
  | None => []
  end.

(** The faults of the file system are all instances of [Exception]. *)
Definition benign_fs (env : tick_env) : Prop :=
  ∀ e, stat_fault env = Some e ∨ open_fault env = Some e
       ∨ read_fault env = Some e →
       is_Exception e = true.

(** [last] is the file and offset of the (re)open that bound the open
    handle, and the handle has not moved back since. *)
Definition seek_inv (s : sys) (last : option (inode * nat)) : Prop :=
  ∀ h, file_handle s = Some h → f_closed h = false →
       ∃ q, last = Some (f_ino h, q) ∧ q ≤ f_pos h.

(** Between two (re)opens the handle stays bound to its file and stays
    open or closed. *)
Definition same_binding (s s' : sys) : Prop :=
  current_inode s' = current_inode s ∧
  match file_handle s with
  | Some h => ∃ h', file_handle s' = Some h' ∧ f_ino h' = f_ino h ∧
                    f_closed h' = f_closed h
  | None => file_handle s' = None
  end.

(** Other processes only append: the path keeps naming the same file. *)
Definition only_appends (ops : list fs_op) : bool :=
  forallb (λ o, match o with Append _ _ => true | _ => false end) ops.

(** When the path names a file throughout, [os.stat] returns an inode
    other than [current_inode] and [open] does not fail, the iteration
    leaves a handle open on the file the path named at the [open], and
    [current_inode] is the inode [os.stat] returned. *)
Definition reopens (env : tick_env) (s s' : sys) : Prop :=
  ∀ i i' j,
    path_after (fs_before_exists env) (path_ino s) = Some i →
    path_after (fs_before_stat env) (Some i) = Some i' →
    stat_fault env = None →
    current_inode s ≠ Some i' →
    open_fault env = None →
    path_after (fs_before_open env) (Some i') = Some j →
    current_inode s' = Some i' ∧
    ∃ pos, file_handle s' = Some (FileObj j pos false).

(** What lines 69-88 do, from any state and in any environment. *)
Definition next_line_post (env : tick_env) (s : sys)
    (o : outcome (option str)) (s' : sys) (tr : list event) : Prop :=
  o ≠ Pending ∧
  clients s' = clients s ∧ closed s' = closed s ∧
  sends tr = [] ∧ passes tr = 0 ∧
  (benign_fs env → catchable o) ∧
  match o with
  | Return (Some l) => l ≠ [] ∧ lines_read tr = [l]
  | _ => lines_read tr = [] ∨ lines_read tr = [[]]
  end ∧
  (∀ last, seek_inv s last →
     ∃ last', (∀ rest, reads_follow_seek last (tr ++ rest)
                       = reads_follow_seek last' rest) ∧
              seek_inv s' last') ∧
  (only_appends (fs_before_open env) = true →
   handle_matches_inode s = true → handle_matches_inode s' = true) ∧
  reopens env s s'.

Definition benign (env : tick_env) : Prop :=
  benign_fs env ∧ benign_net (net env).

(** What the sends of an iteration that read [line] are: none when the
    keyword is not in the line; otherwise one pass, which sends the alert
    for the line to the registered clients in order, once each, up to the
    first client whose handler raises, and to all of them when the pass is
    undisturbed. *)
Definition alert_sent (keyword line : str) (env : net_env) (s : sys)
    (tr : list event) : Prop :=
  if contains keyword line
  then passes tr = 1 ∧
       ∃ k, sends tr = (λ c, (c, alert_prefix ++ strip line))
                       <$> take k (elements (clients s)) ∧
            (undisturbed env s → k = length (elements (clients s)))
  else sends tr = [] ∧ passes tr = 0.

(** What an iteration does, from any state and in any environment. *)
Definition tick_post (keyword : str) (env : tick_env) (s : sys)
    (s' : sys) (tr : list event) : Prop :=
  ((∃ l, l ≠ [] ∧ lines_read tr = [l] ∧ alert_sent keyword l (net env) s tr)
   ∨ ((lines_read tr = [] ∨ lines_read tr = [[]]) ∧
      sends tr = [] ∧ passes tr = 0)) ∧
  (∀ last, seek_inv s last →
     ∃ last', (∀ rest, reads_follow_seek last (tr ++ rest)
                       = reads_follow_seek last' rest) ∧
              seek_inv s' last') ∧
  (only_appends (fs_before_open env) = true →
   handle_matches_inode s = true → handle_matches_inode s' = true) ∧
  reopens env s s'.

(** The watched file holds one old line, the monitor has it open at its
    end, and three clients are registered. *)
Definition tailing : sys :=
  Sys {[1; 2; 3]} ∅ (Some 7%N) {[7%N := u "started" ++ [10%N]]}
      (Some 7%N) (Some (FileObj 7%N 8 false)).

(** A writer appends one line before the monitor looks. *)
Definition bob : str := u "user bob LoggedIn at 10:00" ++ [10%N].
Definition appended (text : str) : tick_env :=
  TickEnv [Append 7%N text] [] [] [] [] None None None calm.

(** The path named an old file with two lines; it is replaced by a new
    file that already holds one line, and one more line is appended to the
    new file after the monitor has reopened. *)
Definition rotated : sys :=
  Sys {[1]} ∅ (Some 7%N)
      {[7%N := u "one" ++ [10%N] ++ u "LoggedIn two" ++ [10%N];
        8%N := u "LoggedIn early" ++ [10%N]]}
      (Some 7%N) (Some (FileObj 7%N 17 false)).

Definition rotation : list tick_env :=
  [TickEnv [Rotate 8%N] [] [] [] [] None None None calm;
   TickEnv [Append 8%N (u "LoggedIn late" ++ [10%N])] [] [] [] []
     None None None calm].

(** The monitor opens the file; the file is deleted; it is back but
    [os.stat] is refused; it is replaced but [open] fails after the old
    handle was closed; it is back, and a matching line arrives while the
    receiver of a client deregisters it. *)
Definition mishaps : list tick_env :=
  [still [];
   TickEnv [Unlink] [] [] [] [] None None None calm;
   TickEnv [Rotate 7%N] [] [] [] [] (Some PermissionError) None None calm;
   TickEnv [Rotate 9%N] [] [] [] [] None (Some PermissionError) None calm;
   TickEnv [Rotate 7%N] [] [] [] [Append 7%N bob] None None None (gone 2)].

(** * Reasoning rules *)

Lemma wp_mono {A} (m : M A) s (Q Q' : outcome A → sys → list event → Prop) :
  wp m s Q → (∀ o s' tr, Q o s' tr → Q' o s' tr) → wp m s Q'.
Proof. unfold wp. auto. Qed.

Lemma wp_bind {A B} (m : M A) (k : A → M B) s Q :
  wp m s (λ o s1 tr1,
    match o with
    | Return a => wp (k a) s1 (λ o2 s2 tr2, Q o2 s2 (tr1 ++ tr2))
    | Raise e => Q (Raise e) s1 tr1
    | Pending => Q Pending s1 tr1
    end) →
  wp (m ≫= k) s Q.
Proof.
  unfold wp, mbind, M_bind, bind. by destruct (m s) as [[a|e|] s1 tr1].
Qed.

Lemma wp_try_except {A} (body : M A) cs s Q :
  wp body s (λ o s1 tr1,
    match o with
    | Raise e => wp (dispatch cs e) s1 (λ o2 s2 tr2, Q o2 s2 (tr1 ++ tr2))
    | _ => Q o s1 tr1
    end) →
  wp (try_except body cs) s Q.
Proof.
  unfold wp, try_except. by destruct (body s) as [[a|e|] s1 tr1].
Qed.

Lemma wp_try_finally {A} (body : M A) fin s Q :
  wp body s (λ o s1 tr1,
    match o with
    | Pending => Q Pending s1 tr1
    | _ => wp fin s1 (λ o2 s2 tr2,
             Q (match o2 with Return _ => o | Raise e => Raise e
                              | Pending => Pending end) s2 (tr1 ++ tr2))
    end) →
  wp (try_finally body fin) s Q.
Proof.
  unfold wp, try_finally. by destruct (body s) as [[a|e|] s1 tr1].
Qed.

Lemma wp_ret {A} (a : A) s (Q : outcome A → sys → list event → Prop) :
  Q (Return a) s [] → wp (mret a) s Q.
Proof. done. Qed.

Lemma wp_raise {A} e s (Q : outcome A → sys → list event → Prop) :
  Q (Raise e) s [] → wp (raise e) s Q.
Proof. done. Qed.

Lemma wp_emit e s Q : Q (Return tt) s [e] → wp (emit e) s Q.
Proof. done. Qed.

Lemma wp_get s Q : Q (Return s) s [] → wp get s Q.
Proof. done. Qed.

Lemma wp_modify f s Q : Q (Return tt) (f s) [] → wp (modify f) s Q.
Proof. done. Qed.

Lemma wp_with_lock {A} l (body : M A) s Q :
  wp body s (λ o s1 tr1,
    match o with
    | Pending => Q Pending s1 (Acquire l :: tr1)
    | _ => Q o s1 (Acquire l :: tr1 ++ [Release l])
    end) →
  wp (with_lock l body) s Q.
Proof.
  intros H. unfold with_lock. apply wp_bind, wp_emit. cbn beta iota.
  apply wp_try_finally. eapply wp_mono; [exact H|].
  intros [a|e|] s' tr HQ; try done; by apply wp_emit.
Qed.

Lemma wp_conj {A} (m : M A) s (Q1 Q2 : outcome A → sys → list event → Prop) :
  wp m s Q1 → wp m s Q2 → wp m s (λ o s' tr, Q1 o s' tr ∧ Q2 o s' tr).
Proof. done. Qed.

Lemma wp_intro {A} (m : M A) s (Q : outcome A → sys → list event → Prop) :
  wp m s Q → Q (res (m s)) (post (m s)) (out (m s)).
Proof. done. Qed.

(** Turn a goal about the run of [m] from [s] into a [wp] goal. *)
Ltac wp_start m s :=
  cbv zeta;
  pattern (res (m s)), (post (m s)), (out (m s));
  apply (wp_intro m s).

(** One step of symbolic execution. *)
Ltac wp_step :=
  lazymatch goal with
  | |- wp (mbind _ _) _ _ => apply wp_bind
  | |- wp (try_except _ _) _ _ => apply wp_try_except
  | |- wp (try_finally _ _) _ _ => apply wp_try_finally
  | |- wp (with_lock _ _) _ _ => apply wp_with_lock
  | |- wp (mret _) _ _ => apply wp_ret
  | |- wp (raise _) _ _ => apply wp_raise
  | |- wp (emit _) _ _ => apply wp_emit
  | |- wp (logging _) _ _ => apply wp_emit
  | |- wp (sleep _) _ _ => apply wp_emit
  | |- wp get _ _ => apply wp_get
  | |- wp (modify _) _ _ => apply wp_modify
  end.

Ltac wp_steps := repeat (wp_step; cbn beta iota).

(** * Fan-out *)

Lemma sends_app tr1 tr2 : sends (tr1 ++ tr2) = sends tr1 ++ sends tr2.
Proof.
  induction tr1 as [|e tr1 IH]; [done|].
  destruct e; simpl; by rewrite ?IH.
Qed.

Lemma passes_app tr1 tr2 : passes (tr1 ++ tr2) = passes tr1 + passes tr2.
Proof.
  induction tr1 as [|e tr1 IH]; [done|].
  destruct e; simpl; by rewrite ?IH.
Qed.

Lemma lines_read_app tr1 tr2 :
  lines_read (tr1 ++ tr2) = lines_read tr1 ++ lines_read tr2.
Proof.
  induction tr1 as [|e tr1 IH]; [done|].
  destruct e; simpl; by rewrite ?IH.
Qed.

(** Whatever the network does, one iteration sends the message once, to
    its own client, and takes no snapshot and reads no line. *)
Lemma send_or_prune_sends env msg c s :
  wp (send_or_prune env msg c) s (λ o _ tr,
    sends tr = [(c, msg)] ∧ passes tr = 0 ∧ lines_read tr = [] ∧ o ≠ Pending).
Proof.
  unfold send_or_prune, sendall, getpeername, clients_remove, conn_close.
  wp_steps.
  destruct (send_exn env c) as [e|]; wp_steps; [|done].
  simpl dispatch.
  destruct (is_transport_error e); wp_steps.
  - destruct (peername_exn env c); wp_steps; [done|].
    case_decide; wp_steps; done.
  - destruct (is_Exception e); wp_steps; [|done].
    destruct (peername_exn env c); wp_steps; done.
Qed.

(** When the handler of [c] runs to its end, a transport failure prunes
    [c] and any other failure is only logged. *)
Lemma send_or_prune_complete env msg c s :
  peername_exn env c = None →
  (∀ e, send_exn env c = Some e → is_Exception e = true) →
  c ∈ clients s →
  wp (send_or_prune env msg c) s (λ o s' tr,
    o = Return tt ∧ tr = client_events env msg c ∧
    s' = if transport_failure env c then prune c s else s).
Proof.
  intros Hpeer Hexn Hin.
  unfold send_or_prune, sendall, getpeername, clients_remove, conn_close,
    client_events, transport_failure.
  rewrite Hpeer. wp_steps.
  destruct (send_exn env c) as [e|]; wp_steps; [|done].
  simpl dispatch.
  destruct (is_transport_error e); wp_steps.
  - case_decide; [|done]. wp_steps. done.
  - rewrite (Hexn e eq_refl). wp_steps. done.
Qed.

Lemma pass_body_sends env msg c s :
  wp (pass_body env msg c) s (λ o _ tr,
    sends tr = [(c, msg)] ∧ passes tr = 0 ∧ lines_read tr = [] ∧ o ≠ Pending).
Proof.
  unfold pass_body, receiver_departs. wp_step.
  destruct (departs env c); wp_steps;
    (eapply wp_mono; [apply send_or_prune_sends|]); by intros.
Qed.

(** A pass sends the message to the clients of the snapshot in order, once
    each, up to the first client whose handler raises. *)
Lemma pass_sends env msg l s :
  wp (for_each l (pass_body env msg)) s (λ o _ tr,
    ∃ k, sends tr = (λ c, (c, msg)) <$> take k l ∧
         (o = Return tt → k = length l) ∧
         passes tr = 0 ∧ lines_read tr = [] ∧ o ≠ Pending).
Proof.
  revert s. induction l as [|c l IH]; intros s; simpl for_each.
  - wp_steps. by exists 0.
  - wp_step. eapply wp_mono; [apply pass_body_sends|].
    intros [[]|e|] s1 tr1 (Hs & Hp & Hl & Hne); [| |done].
    + eapply wp_mono; [apply IH|].
      intros o s2 tr2 (k & Hk & Hret & Hp2 & Hl2 & Hne2).
      exists (S k). rewrite sends_app, passes_app, lines_read_app.
      rewrite Hs, Hk, Hp, Hp2, Hl, Hl2. simpl.
      repeat split; [|done]. intros ->. by rewrite Hret.
    + exists 1. by rewrite Hs.
Qed.

Lemma pass_state_clients env l s c :
  c ∈ clients (pass_state env l s) ↔
  c ∈ clients s ∧ ¬ (c ∈ l ∧ transport_failure env c = true).
Proof.
  revert s. induction l as [|c' l IH]; intros s; simpl.
  - set_solver.
  - rewrite IH. destruct (transport_failure env c') eqn:Hc'; simpl.
    + rewrite elem_of_difference, elem_of_singleton, elem_of_cons.
      split.
      * intros [[Hin Hne] Hl]. split; [done|].
        intros [[->|Hc] Ht]; [done|]. by apply Hl.
      * intros [Hin Hn]. split; [split; [done|]|].
        -- intros ->. apply Hn. by split; [left|].
        -- intros [Hc Ht]. apply Hn. by split; [right|].
    + rewrite elem_of_cons. split.
      * intros [Hin Hl]. split; [done|].
        intros [[->|Hc] Ht]; [congruence|]. by apply Hl.
      * intros [Hin Hn]. split; [done|].
        intros [Hc Ht]. apply Hn. by split; [right|].
Qed.

Lemma pass_state_closed env l s c :
  c ∈ closed (pass_state env l s) ↔
  c ∈ closed s ∨ (c ∈ l ∧ transport_failure env c = true).
Proof.
  revert s. induction l as [|c' l IH]; intros s; simpl.
  - set_solver.
  - rewrite IH. destruct (transport_failure env c') eqn:Hc'; simpl.
    + rewrite elem_of_union, elem_of_singleton, elem_of_cons.
      split.
      * intros [[->|Hin]|[Hc Ht]]; [right|by left|right]; split; auto.
      * intros [Hin|[[->|Hc] Ht]]; auto.
    + rewrite elem_of_cons. split.
      * intros [Hin|[Hc Ht]]; [by left|right]; auto.
      * intros [Hin|[[->|Hc] Ht]]; [by left|congruence|right]; auto.
Qed.

(** A pass over clients that are all registered, during which no receiver
    ends and every handler runs to its end. *)
Lemma pass_complete env msg l s :
  NoDup l →
  (∀ c, c ∈ l → c ∈ clients s) →
  (∀ c, c ∈ l → peername_exn env c = None) →
  (∀ c, c ∈ l → departs env c = false) →
  (∀ c e, c ∈ l → send_exn env c = Some e → is_Exception e = true) →
  wp (for_each l (pass_body env msg)) s (λ o s' tr,
    o = Return tt ∧ s' = pass_state env l s ∧
    tr = flat_map (client_events env msg) l).
Proof.
  revert s. induction l as [|c l IH]; intros s Hnd Hin Hpeer Hdep Hexn;
    simpl for_each.
  - wp_steps. done.
  - apply NoDup_cons in Hnd as [Hc Hnd].
    wp_step. unfold pass_body at 1, receiver_departs.
    rewrite (Hdep c) by left. wp_steps.
    eapply wp_mono.
    { apply send_or_prune_complete; [apply Hpeer; left | | apply Hin; left].
      intros e. apply Hexn. left. }
    intros o s1 tr1 (-> & -> & ->).
    eapply wp_mono.
    { apply IH; [done| |intros; apply Hpeer; by right
                 |intros; apply Hdep; by right
                 |intros c' e ?; apply Hexn; by right].
      intros c' Hc'. specialize (Hin c' ltac:(by right)).
      destruct (transport_failure env c); [|done]. simpl.
      apply elem_of_difference. split; [done|].
      rewrite elem_of_singleton. by intros ->. }
    intros o s2 tr2 (-> & -> & ->). done.
Qed.

Lemma wp_clients_list s Q :
  Q (Return (elements (clients s))) s [RegIter] → wp clients_list s Q.
Proof. done. Qed.

Lemma fan_out_complete env msg s :
  undisturbed env s →
  wp (fan_out env msg) s (λ o s' tr,
    o = Return tt ∧
    tr = Acquire client_lock :: RegIter ::
         flat_map (client_events env msg) (elements (clients s))
         ++ [Release client_lock] ∧
    s' = pass_state env (elements (clients s)) s).
Proof.
  intros Hu. unfold fan_out. wp_step. wp_step. apply wp_clients_list.
  cbn beta iota. eapply wp_mono.
  - apply pass_complete.
    + apply NoDup_elements.
    + intros c. by rewrite elem_of_elements.
    + intros c Hc. by apply Hu, elem_of_elements.
    + intros c Hc. by apply Hu, elem_of_elements.
    + intros c e Hc. by apply Hu, elem_of_elements.
  - intros o s' tr (-> & -> & ->). done.
Qed.



(** * Removal of a client that is no longer registered *)

(** C8: the prune of a fan-out pass is not a no-op on a client that is no
    longer registered.  The registry holds client [1]; a heartbeat pass
    snapshots it; the receiver of [1] ends and deregisters it; the send to
    [1] then fails with a broken pipe.  [clients.remove] raises [KeyError]
    inside the [except] clause, the pass ends with it, and so does the
    heartbeat thread, before its second pass.  The removal of
    [handle_client], which tests membership first, is a no-op on the same
    registry. *)
Theorem prune_of_departed_client_raises :
  res (fan_out (gone 1) keep_alive_message one_client) = Raise KeyError ∧
  res (send_keep_alive default_config [gone 1; calm] one_client)
    = Raise KeyError ∧
  passes (out (send_keep_alive default_config [gone 1; calm] one_client))
    = 1 ∧
  res (handle_client 1 None [Recvd []] idle) = Return tt.
Proof. vm_compute. done. Qed.

(** * Lock discipline *)

(** C3: the receiver does not hold [client_lock] when it removes its
    connection from the registry: the lock of its [with] statement is one
    it has just built.  Here the peer of client [1] closes the stream. *)
Theorem handle_client_removes_without_client_lock :
  out (handle_client 1 None [Recvd []] one_client)
    = [Log INFO; Recv 1; Log INFO; Acquire anonymous_lock; RegTest 1;
       RegRemove 1; Release anonymous_lock; CloseConn 1] ∧
  lock_discipline [] (out (handle_client 1 None [Recvd []] one_client))
    = false.
Proof. vm_compute. done. Qed.

(** * Handshake failures *)

(** C5: a handshake that fails with an exception that is not an
    [ssl.SSLError] ends the accept loop.  The first connection is reset by
    its peer during the handshake: nothing is logged for it, its raw socket
    is not closed, the [finally] block shuts the server down and
    [start_server] ends with the exception; the second connection is never
    accepted. *)
Theorem handshake_reset_ends_accept_loop :
  let r := start_server
             [Incoming 1 (HandshakeRaises ConnectionResetError);
              Incoming 2 (Established 7)]
             (λ _, false) idle in
  res r = Raise ConnectionResetError ∧
  out r = [Log INFO; StartThread; StartThread; Accept 1; Log INFO;
           Acquire client_lock; RegIter; Release client_lock;
           CloseListener; Log INFO].
Proof. vm_compute. done. Qed.

(** A handshake that fails with an [ssl.SSLError] is logged, the raw
    socket is closed, and the loop goes on. *)
Lemma accept_step_ssl_error r e s :
  is_SSLError e = true →
  accept_step (Incoming r (HandshakeRaises e)) s
  = Run (Return false) s [Accept r; Log INFO; Log ERROR; CloseRaw r].
Proof. by destruct e. Qed.

(** A handshake that succeeds registers the connection under
    [client_lock], then starts its receiver, and the loop goes on. *)
Lemma accept_step_established r c s :
  accept_step (Incoming r (Established c)) s
  = Run (Return false) (set_clients (λ cs, {[c]} ∪ cs) s)
      [Accept r; Log INFO; Log INFO; Acquire client_lock; RegAdd c;
       Release client_lock; StartReceiver c].
Proof. reflexivity. Qed.

(** * The watcher invariant *)

(** C9: [current_inode] is the inode [os.stat] saw, not the inode of the
    file [open] bound.  The path names file [1] when the monitor stats it
    and file [2] when the monitor opens it: after the iteration the handle
    is open on file [2] and [current_inode] is [1]. *)
Theorem rotation_between_stat_and_open_breaks_invariant :
  let s' := post (watch_log_file_by_inode default_config (u "LoggedIn")
                    [raced] watching) in
  file_handle s' = Some (FileObj 2%N 0 false) ∧
  current_inode s' = Some 1%N ∧
  handle_matches_inode s' = false.
Proof. vm_compute. done. Qed.

(** * Shutdown *)

Lemma accept_loop_prefix pre rest s Q :
  forallb survivable pre = true →
  (∀ s1, clients s1 = list_to_set (established pre) ∪ clients s →
         closed s1 = closed s →
         wp (while_true rest accept_step) s1 (λ o s2 tr,
           Q o s2 (flat_map accept_events pre ++ tr))) →
  wp (while_true (pre ++ rest) accept_step) s Q.
Proof.
  revert s Q. induction pre as [|a pre IH]; intros s Q Hpre HQ.
  - simpl. eapply wp_mono; [apply HQ; [set_solver|done]|]. done.
  - simpl in Hpre. apply andb_prop in Hpre as [Ha Hpre].
    simpl app. simpl while_true. wp_step. unfold wp at 1.
    destruct a as [r [c|e]|e]; [| |done].
    + rewrite accept_step_established. cbn [res post out].
      apply IH; [done|]. intros s1 Hc Hcl.
      eapply wp_mono; [apply HQ|].
      * rewrite Hc. simpl. set_solver.
      * done.
      * intros o s2 tr Ho. simpl. exact Ho.
    + rewrite accept_step_ssl_error by done. cbn [res post out].
      apply IH; [done|]. intros s1 Hc Hcl.
      eapply wp_mono; [apply HQ; done|].
      intros o s2 tr Ho. simpl. exact Ho.
Qed.

Lemma shutdown_loop dep l s :
  NoDup l →
  (∀ c, c ∈ l → c ∈ clients s) →
  (∀ c, c ∈ l → dep c = false) →
  wp (for_each l (λ c, receiver_departs dep c ;;
                       conn_close c ;; clients_remove c)) s
    (λ o s' tr,
       o = Return tt ∧ tr = flat_map close_events l ∧
       clients s' = clients s ∖ list_to_set l ∧
       closed s' = list_to_set l ∪ closed s).
Proof.
  revert s. induction l as [|c l IH]; intros s Hnd Hin Hdep; simpl for_each.
  - wp_steps. split; [done|]. split; [done|]. simpl. set_solver.
  - apply NoDup_cons in Hnd as [Hc Hnd].
    wp_step. wp_step. unfold receiver_departs. rewrite (Hdep c) by left.
    wp_steps. unfold conn_close, clients_remove. wp_steps.
    simpl. case_decide as Hmem; [|by specialize (Hin c ltac:(left))].
    wp_steps. eapply wp_mono.
    { apply IH; [done| |intros; apply Hdep; by right].
      intros c' Hc'. simpl. apply elem_of_difference.
      split; [apply Hin; by right|].
      rewrite elem_of_singleton. by intros ->. }
    intros o s' tr (-> & -> & Hcl & Hcd). simpl in *.
    split; [done|]. split; [done|]. rewrite Hcl, Hcd. set_solver.
Qed.

Lemma shutdown_spec dep s :
  (∀ c, c ∈ clients s → dep c = false) →
  wp (shutdown dep) s (λ o s' tr,
    o = Return tt ∧
    tr = Acquire client_lock :: RegIter ::
         flat_map close_events (elements (clients s))
         ++ [Release client_lock; CloseListener; Log INFO] ∧
    clients s' = ∅ ∧ closed s' = closed s ∪ clients s).
Proof.
  intros Hdep. unfold shutdown. wp_step. wp_step. wp_step.
  apply wp_clients_list. cbn beta iota.
  eapply wp_mono.
  { apply shutdown_loop; [apply NoDup_elements| |].
    - intros c. by rewrite elem_of_elements.
    - intros c Hc. apply Hdep. by apply elem_of_elements. }
  intros o s' tr (-> & -> & Hcl & Hcd). wp_steps.
  rewrite list_to_set_elements_L in Hcl, Hcd.
  split; [done|]. split.
  - simpl. by rewrite <- !app_assoc.
  - rewrite Hcl, Hcd. set_solver.
Qed.



(** * The receiver *)

Lemma handle_client_finally_spec c s :
  wp (handle_client_finally c) s (λ o s' tr,
    o = Return tt ∧ tr = deregister_events c (clients s) ∧
    clients s' = clients s ∖ {[c]} ∧ closed s' = {[c]} ∪ closed s).
Proof.
  unfold handle_client_finally, clients_mem, clients_remove, conn_close,
    deregister_events.
  wp_steps. case_bool_decide as Hmem; wp_steps.
  - case_decide; [|done]. wp_steps. done.
  - simpl. repeat split; try done. set_solver.
Qed.





(** * What a pass leaves alone *)

Lemma same_files_refl s : same_files s s.
Proof. done. Qed.

Lemma same_files_trans s1 s2 s3 :
  same_files s1 s2 → same_files s2 s3 → same_files s1 s3.
Proof. unfold same_files. intros (?&?&?&?) (?&?&?&?). repeat split; congruence. Qed.

Ltac plain_trace :=
  cbn [app]; repeat (constructor; [reflexivity|]); constructor.

Lemma send_or_prune_frame env msg c s0 s :
  same_files s0 s →
  wp (send_or_prune env msg c) s (λ o s' tr,
    same_files s0 s' ∧ Forall (λ e, plain e = true) tr ∧
    (benign_net env → catchable o)).
Proof.
  intros Hs.
  unfold send_or_prune, sendall, getpeername, clients_remove, conn_close.
  wp_steps.
  destruct (send_exn env c) as [e|] eqn:Hsend; wp_steps;
    [|by split; [|split; [plain_trace|]]].
  simpl dispatch.
  destruct (is_transport_error e); wp_steps.
  - destruct (peername_exn env c) as [e'|] eqn:Hpeer; wp_steps.
    { split; [done|]. split; [plain_trace|].
      intros Hb. apply (Hb c e'). by right. }
    case_decide; wp_steps; by split; [|split; [plain_trace|]].
  - destruct (is_Exception e) eqn:He; wp_steps.
    + destruct (peername_exn env c) as [e'|] eqn:Hpeer; wp_steps.
      { split; [done|]. split; [plain_trace|].
        intros Hb. apply (Hb c e'). by right. }
      by split; [|split; [plain_trace|]].
    + split; [done|]. split; [plain_trace|].
      intros Hb. apply (Hb c e). by left.
Qed.

Lemma pass_body_frame env msg c s :
  wp (pass_body env msg c) s (λ o s' tr,
    same_files s s' ∧ Forall (λ e, plain e = true) tr ∧
    (benign_net env → catchable o)).
Proof.
  unfold pass_body, receiver_departs. wp_step.
  destruct (departs env c); wp_steps;
    (eapply wp_mono; [by apply (send_or_prune_frame env msg c s)|]);
    by intros.
Qed.

Lemma pass_frame env msg l s :
  wp (for_each l (pass_body env msg)) s (λ o s' tr,
    same_files s s' ∧ Forall (λ e, plain e = true) tr ∧
    (benign_net env → catchable o)).
Proof.
  revert s. induction l as [|c l IH]; intros s; simpl for_each.
  - wp_steps. done.
  - wp_step. eapply wp_mono; [apply pass_body_frame|].
    intros [[]|e|] s1 tr1 (Hs & Hp & Hb); [|done|done].
    eapply wp_mono; [apply IH|].
    intros o s2 tr2 (Hs2 & Hp2 & Hb2).
    split; [by eapply same_files_trans|].
    split; [by apply Forall_app|done].
Qed.

(** A fan-out pass touches neither the file system nor the locals of the
    monitor, takes one snapshot of the registry under [client_lock], and
    sends the message to the clients of the snapshot in order, once each,
    up to the first client whose handler raises. *)
Lemma fan_out_facts env msg s :
  wp (fan_out env msg) s (λ o s' tr,
    o ≠ Pending ∧
    same_files s s' ∧
    (benign_net env → catchable o) ∧
    passes tr = 1 ∧ lines_read tr = [] ∧
    (∃ body, tr = Acquire client_lock :: RegIter :: body
                  ++ [Release client_lock] ∧
             Forall (λ e, plain e = true) body) ∧
    ∃ k, sends tr = (λ c, (c, msg)) <$> take k (elements (clients s)) ∧
         (o = Return tt → k = length (elements (clients s)))).
Proof.
  unfold fan_out. wp_step. wp_step. apply wp_clients_list. cbn beta iota.
  eapply wp_mono; [apply wp_conj; [apply pass_frame|apply pass_sends]|].
  intros o s' tr [(Hs & Hp & Hb) (k & Hk & Hret & Hpass & Hl & Hne)].
  assert (passes (Acquire client_lock :: ([RegIter] ++ tr)
                  ++ [Release client_lock]) = 1 ∧
          lines_read (Acquire client_lock :: ([RegIter] ++ tr)
                      ++ [Release client_lock]) = [] ∧
          sends (Acquire client_lock :: ([RegIter] ++ tr)
                 ++ [Release client_lock])
          = (λ c, (c, msg)) <$> take k (elements (clients s)))
    as (Hp' & Hl' & Hk').
  { simpl. rewrite !passes_app, !lines_read_app, !sends_app, Hpass, Hl, Hk.
    simpl. by rewrite app_nil_r. }
  destruct o as [[]|e|]; [| |done]; rewrite Hp', Hl', Hk';
    (split; [done|]); (split; [exact Hs|]); repeat split; eauto.
Qed.

(** * Other processes *)

Lemma content_apply_op s o i :
  ∃ more, content (apply_op s o) i = content s i ++ more.
Proof.
  destruct o as [j text| |]; simpl; [|by exists []; rewrite app_nil_r..].
  unfold content at 1. simpl.
  destruct (decide (j = i)) as [->|Hne].
  - rewrite lookup_insert_eq. by eexists.
  - rewrite lookup_insert_ne by done. exists []. by rewrite app_nil_r.
Qed.

Lemma apply_ops_drift ops s :
  drift s (foldl apply_op s ops) ∧
  path_ino (foldl apply_op s ops) = path_after ops (path_ino s).
Proof.
  revert s. induction ops as [|o ops IH]; intros s; simpl.
  - repeat split; try done. intros i. exists []. by rewrite app_nil_r.
  - destruct (IH (apply_op s o)) as [(Hc & Hcl & Hi & Hh & Hf) Hp].
    split; [|by rewrite Hp; destruct o].
    unfold drift. rewrite Hc, Hcl, Hi, Hh. repeat split; try by destruct o.
    intros i. destruct (Hf i) as [more ->].
    destruct (content_apply_op s o i) as [more' ->].
    exists (more' ++ more). by rewrite app_assoc.
Qed.

Lemma wp_other_processes ops s Q :
  (∀ s', drift s s' → path_ino s' = path_after ops (path_ino s) →
         Q (Return tt) s' []) →
  wp (other_processes ops) s Q.
Proof.
  intros HQ. apply wp_modify. by apply HQ; apply apply_ops_drift.
Qed.

(** * The (re)open block *)

Lemma open_at_end_spec env st_ino s :
  wp (open_at_end env st_ino) s (λ o s' tr,
    clients s' = clients s ∧ closed s' = closed s ∧
    match o with
    | Return _ =>
        ∃ j, file_handle s' = Some (FileObj j (length (content s' j)) false) ∧
             current_inode s' = Some st_ino ∧
             path_after (fs_before_open env) (path_ino s) = Some j ∧
             tr = [OpenFile j; Log INFO; SeekEnd j (length (content s' j))]
    | Raise e =>
        file_handle s' = file_handle s ∧
        current_inode s' = current_inode s ∧ tr = [] ∧
        (open_fault env = Some e ∨
         e = FileNotFoundError ∧
         path_after (fs_before_open env) (path_ino s) = None)
    | Pending => False
    end).
Proof.
  unfold open_at_end. wp_step.
  apply wp_other_processes. intros s2 (Hc2 & Hcl2 & Hi2 & Hh2 & _) Hp2.
  cbn beta iota. wp_step. unfold open_file.
  destruct (open_fault env) as [e|] eqn:Hfault; wp_steps.
  { repeat split; try done. by left. }
  destruct (path_ino s2) as [j|] eqn:Hj; wp_steps.
  2:{ repeat split; try done. right. by rewrite <- Hp2. }
  apply wp_other_processes. intros s3 (Hc3 & Hcl3 & Hi3 & Hh3 & _) _.
  cbn beta iota. unfold seek_end. wp_steps. rewrite Hh3. simpl.
  wp_steps. unfold content. simpl. simpl in Hc3, Hcl3, Hi3.
  rewrite Hc3, Hcl3, Hc2, Hcl2. split; [done|]. split; [done|].
  exists j. by rewrite Hp2.
Qed.

Lemma reopen_spec env st_ino s :
  wp (reopen env st_ino) s (λ o s' tr,
    clients s' = clients s ∧ closed s' = closed s ∧
    match o with
    | Return _ =>
        ∃ j, file_handle s' = Some (FileObj j (length (content s' j)) false) ∧
             current_inode s' = Some st_ino ∧
             path_after (fs_before_open env) (path_ino s) = Some j ∧
             tr = closing_events (file_handle s)
                  ++ [OpenFile j; Log INFO;
                      SeekEnd j (length (content s' j))]
    | Raise e =>
        (∀ h, file_handle s' = Some h → f_closed h = true) ∧
        current_inode s' = current_inode s ∧
        tr = closing_events (file_handle s) ∧
        (open_fault env = Some e ∨
         e = FileNotFoundError ∧
         path_after (fs_before_open env) (path_ino s) = None)
    | Pending => False
    end).
Proof.
  unfold reopen. wp_step. wp_step. cbn beta iota. wp_step.
  destruct (file_handle s) as [h|] eqn:Hold.
  - wp_step. wp_step. cbn beta iota. unfold file_close. wp_step.
    assert (∀ tr0,
      tr0 = closing_events (Some h) →
      wp (modify (set_file_handle
                    (Some (FileObj (f_ino h) (f_pos h) true)))) s
        (λ o s1 tr1,
           match o with
           | Return _ =>
               wp (open_at_end env st_ino) s1 (λ o2 s2 tr2,
                 clients s2 = clients s ∧ closed s2 = closed s ∧
                 match o2 with
                 | Return _ =>
                     ∃ j, file_handle s2
                          = Some (FileObj j (length (content s2 j)) false) ∧
                          current_inode s2 = Some st_ino ∧
                          path_after (fs_before_open env) (path_ino s)
                          = Some j ∧
                          [] ++ (tr0 ++ tr1) ++ tr2
                          = closing_events (Some h)
                            ++ [OpenFile j; Log INFO;
                                SeekEnd j (length (content s2 j))]
                 | Raise e =>
                     (∀ h', file_handle s2 = Some h' → f_closed h' = true) ∧
                     current_inode s2 = current_inode s ∧
                     [] ++ (tr0 ++ tr1) ++ tr2 = closing_events (Some h) ∧
                     (open_fault env = Some e ∨
                      e = FileNotFoundError ∧
                      path_after (fs_before_open env) (path_ino s) = None)
                 | Pending => False
                 end)
           | _ => False
           end)) as Hclose.
    { intros tr0 ->. wp_step.
      eapply wp_mono; [apply open_at_end_spec|].
      intros [[]|e|] s2 tr2 (Hc & Hcl & Ho); [| |done].
      - destruct Ho as (j & Hh & Hi & Hp & ->). simpl in *.
        rewrite app_nil_r. repeat split; try done. by exists j.
      - destruct Ho as (Hh & Hi & -> & He). simpl in *.
        rewrite !app_nil_r. repeat split; try done.
        intros h'. rewrite Hh. by intros [= <-]. }
    destruct (f_closed h) eqn:Hclosed; wp_steps.
    + eapply wp_mono; [apply (Hclose [Log INFO]); simpl; by rewrite Hclosed|].
      by intros [[]|e|] s1 tr1.
    + eapply wp_mono;
        [apply (Hclose [Log INFO; CloseFile (f_ino h)]);
         simpl; by rewrite Hclosed|].
      by intros [[]|e|] s1 tr1.
  - wp_step. eapply wp_mono; [apply open_at_end_spec|].
    intros [[]|e|] s2 tr2 (Hc & Hcl & Ho); [| |done].
    + destruct Ho as (j & Hh & Hi & Hp & ->). simpl in *.
      repeat split; try done. by exists j.
    + destruct Ho as (Hh & Hi & -> & He). simpl in *.
      repeat split; try done. rewrite Hh, Hold. by intros ? [=].
Qed.

(** * Reading *)

Lemma same_binding_matches s s' :
  same_binding s s' → handle_matches_inode s' = handle_matches_inode s.
Proof.
  unfold same_binding, handle_matches_inode. intros [-> H].
  destruct (file_handle s) as [h|].
  - destruct H as (h' & -> & -> & ->). done.
  - by rewrite H.
Qed.

Lemma read_one_line_spec CONFIG env s :
  wp (read_one_line CONFIG env) s (λ o s' tr,
    o ≠ Pending ∧
    clients s' = clients s ∧ closed s' = closed s ∧
    sends tr = [] ∧ passes tr = 0 ∧
    (benign_fs env → catchable o) ∧
    match o with
    | Return (Some l) => l ≠ [] ∧ lines_read tr = [l]
    | Return None => lines_read tr = [[]]
    | _ => lines_read tr = []
    end ∧
    same_binding s s' ∧
    ∀ last, seek_inv s last →
      (∀ rest, reads_follow_seek last (tr ++ rest)
               = reads_follow_seek last rest) ∧
      seek_inv s' last).
Proof.
  unfold read_one_line. wp_step.
  apply wp_other_processes. intros s1 (Hc & Hcl & Hi & Hh & _) _.
  cbn beta iota. wp_step. unfold readline. wp_steps.
  rewrite Hh.
  destruct (file_handle s) as [h|] eqn:Hold; wp_steps.
  2:{ unfold same_binding, seek_inv. rewrite Hc, Hcl, Hi, Hh, Hold.
      split_and!; try done. }
  destruct (f_closed h) eqn:Hclosed; wp_steps.
  { unfold same_binding, seek_inv. rewrite Hc, Hcl, Hi, Hh, Hold.
    split_and!; try done. by exists h. }
  destruct (read_fault env) as [e|] eqn:Hfault; wp_steps.
  { unfold same_binding, seek_inv. rewrite Hc, Hcl, Hi, Hh, Hold.
    split_and!; try done; [|by exists h].
    intros Hb. apply Hb. auto. }
  assert (∀ line tl, Forall (λ e, plain e = true) tl →
    ∀ last, seek_inv s last →
      (∀ rest, reads_follow_seek last
                 ((([] ++ [ReadLine (f_ino h) (f_pos h) line]) ++ []) ++ tl
                  ++ rest)
               = reads_follow_seek last rest) ∧
      seek_inv (set_file_handle
                  (Some (FileObj (f_ino h) (f_pos h + length line) false)) s1)
        last) as Hseek.
  { intros line tl Htl last Hlast.
    destruct (Hlast h Hold Hclosed) as (q & -> & Hq). split.
    - intros rest. simpl. rewrite !bool_decide_eq_true_2 by done. simpl.
      clear -Htl. induction Htl as [|e tl He _ IH]; [done|].
      by destruct e.
    - intros h' [= <-] _. exists q. split; [done|]. simpl. lia. }
  destruct (take_line (drop (f_pos h) (content s1 (f_ino h))))
    as [|b line] eqn:Hline; wp_steps.
  - simpl. unfold same_binding. simpl. rewrite Hc, Hcl, Hi, Hold.
    split_and!; try done; [by eexists|].
    intros last Hlast.
    destruct (Hseek [] [Sleep (monitor_poll_interval CONFIG)]
                ltac:(plain_trace) last Hlast) as [H1 H2].
    split; [intros rest; apply (H1 rest)|exact H2].
  - simpl. unfold same_binding. simpl. rewrite Hc, Hcl, Hi, Hold.
    split_and!; try done; [by eexists|].
    intros last Hlast.
    destruct (Hseek (b :: line) [] ltac:(plain_trace) last Hlast)
      as [H1 H2].
    split; [intros rest; apply (H1 rest)|done].
Qed.

Lemma only_appends_path ops p :
  only_appends ops = true → path_after ops p = p.
Proof.
  unfold path_after. revert p.
  induction ops as [|o ops IH]; intros p H; [done|].
  simpl in H. apply andb_prop in H as [Ho H]. simpl.
  destruct o; try done. by apply IH.
Qed.

Lemma drift_matches s s' :
  drift s s' → handle_matches_inode s' = handle_matches_inode s.
Proof.
  intros (_ & _ & Hi & Hh & _). unfold handle_matches_inode.
  by rewrite Hi, Hh.
Qed.

Lemma drift_seek_inv s s' last : drift s s' → seek_inv s last → seek_inv s' last.
Proof. intros (_ & _ & _ & Hh & _). unfold seek_inv. by rewrite Hh. Qed.

Lemma reads_follow_seek_reopen last old j p rest :
  reads_follow_seek last
    ((closing_events old ++ [OpenFile j; Log INFO; SeekEnd j p]) ++ rest)
  = reads_follow_seek (Some (j, p)) rest.
Proof. destruct old as [[i q []]|]; done. Qed.

Lemma reads_follow_seek_closing last old rest :
  reads_follow_seek last (closing_events old ++ rest)
  = reads_follow_seek last rest.
Proof. destruct old as [[i q []]|]; done. Qed.

Lemma next_line_spec CONFIG env s :
  wp (next_line CONFIG env) s (next_line_post env s).
Proof.
  unfold next_line. wp_step.
  apply wp_other_processes. intros s1 Hd1 Hpath1. cbn beta iota.
  pose proof Hd1 as (Hc1 & Hcl1 & Hi1 & Hh1 & _).
  wp_step. unfold os_path_exists. wp_steps.
  destruct (path_ino s1) as [p|] eqn:Hp1; simpl negb; cbn iota; wp_steps.
  2:{ unfold next_line_post. split_and!; try done; [by left| | |].
      - intros last Hlast. exists last. split; [done|].
        by eapply drift_seek_inv.
      - intros _ <-. by apply drift_matches.
      - intros i i' j Hi. congruence. }
  apply wp_other_processes. intros s2 Hd2 Hpath2. cbn beta iota.
  pose proof Hd2 as (Hc2 & Hcl2 & Hi2 & Hh2 & _).
  assert (handle_matches_inode s2 = handle_matches_inode s) as Hm2.
  { rewrite (drift_matches _ _ Hd2). by apply drift_matches. }
  assert (∀ last, seek_inv s last → seek_inv s2 last) as Hs2.
  { intros last Hlast. eapply drift_seek_inv; [exact Hd2|].
    by eapply drift_seek_inv. }
  wp_step. unfold os_stat.
  destruct (stat_fault env) as [e|] eqn:Hstat; wp_steps.
  { unfold next_line_post. rewrite Hc2, Hcl2, Hc1, Hcl1.
    split_and!; try done; [|by left| | |].
    - intros Hb. apply Hb. auto.
    - intros last Hlast. exists last. split; [done|]. by apply Hs2.
    - intros _ <-. done.
    - intros i i' j _ _ Hs. congruence. }
  destruct (path_ino s2) as [st_ino|] eqn:Hp2; wp_steps.
  2:{ unfold next_line_post. rewrite Hc2, Hcl2, Hc1, Hcl1.
      split_and!; try done; [by left| | |].
      - intros last Hlast. exists last. split; [done|]. by apply Hs2.
      - intros _ <-. done.
      - intros i i' j Hi Hi'. congruence. }
  case_decide as Hne.
  - eapply wp_mono; [apply reopen_spec|].
    intros [[]|e|] s3 tr3 (Hc3 & Hcl3 & Ho); [| |done].
    + destruct Ho as (j & Hh3 & Hi3 & Hj & ->).
      eapply wp_mono; [apply read_one_line_spec|].
      intros o s4 tr4
        (Hnp & Hc4 & Hcl4 & Hsd & Hpa & Hb & Hl & Hsame & Hseek).
      unfold next_line_post.
      rewrite Hc4, Hcl4, Hc3, Hcl3, Hc2, Hcl2, Hc1, Hcl1.
      rewrite !sends_app, !passes_app, !lines_read_app, Hsd, Hpa.
      assert (∀ old, sends (closing_events old) = [] ∧
                     passes (closing_events old) = 0 ∧
                     lines_read (closing_events old) = []) as Hold
        by (by intros [[? ? []]|]).
      destruct (Hold (file_handle s2)) as (-> & -> & ->). simpl.
      split_and!; try done.
      * destruct o as [[l|]|e|]; [done|by right|by left|by left].
      * intros last Hlast.
        destruct (Hseek (Some (j, length (content s3 j)))) as [H1 H2].
        { intros h. rewrite Hh3. intros [= <-] _. by eexists. }
        eexists. split; [|exact H2]. intros rest.
        rewrite <- !app_assoc.
        rewrite (app_assoc (closing_events _)).
        rewrite reads_follow_seek_reopen. apply H1.
      * intros Hk _. rewrite (same_binding_matches _ _ Hsame).
        unfold handle_matches_inode. rewrite Hh3, Hi3. simpl.
        rewrite only_appends_path in Hj by done.
        apply bool_decide_eq_true. congruence.
      * intros i i' j' Hi Hi' _ _ _ Hj'.
        destruct Hsame as [Hi4 Hh4]. rewrite Hh3 in Hh4.
        destruct Hh4 as ([j4 pos4 c4] & Hh4 & Hj4 & Hc4'). simpl in *.
        subst j4 c4. rewrite Hi4, Hi3, Hh4.
        assert (st_ino = i') as -> by congruence.
        assert (j = j') as -> by congruence.
        split; [done|]. by exists pos4.
    + destruct Ho as (Hh3 & Hi3 & -> & He).
      unfold next_line_post. rewrite Hc3, Hcl3, Hc2, Hcl2, Hc1, Hcl1.
      rewrite ?sends_app, ?passes_app, ?lines_read_app.
      assert (∀ old, sends (closing_events old) = [] ∧
                     passes (closing_events old) = 0 ∧
                     lines_read (closing_events old) = []) as Hold
        by (by intros [[? ? []]|]).
      destruct (Hold (file_handle s2)) as (-> & -> & ->). simpl.
      split_and!; try done; [|by left| | |].
      * intros Hb. destruct He as [He|[-> _]]; [|done]. apply Hb. auto.
      * intros last Hlast. exists last. split.
        -- intros rest. apply reads_follow_seek_closing.
        -- intros h Hh Hopen. rewrite (Hh3 h Hh) in Hopen. done.
      * intros _ _. unfold handle_matches_inode.
        destruct (file_handle s3) as [h|] eqn:Hh; [|done].
        by rewrite (Hh3 h eq_refl).
      * intros i i' j' Hi Hi' _ _ Hopen Hj'.
        destruct He as [He|[_ He]]; congruence.
  - wp_steps. eapply wp_mono; [apply read_one_line_spec|].
    intros o s4 tr4 (Hnp & Hc4 & Hcl4 & Hsd & Hpa & Hb & Hl & Hsame & Hseek).
    unfold next_line_post.
    rewrite Hc4, Hcl4, Hc2, Hcl2, Hc1, Hcl1. simpl.
    split_and!; try done.
    * destruct o as [[l|]|e|]; [done|by right|by left|by left].
    * intros last Hlast. exists last. by apply Hseek, Hs2.
    * intros _ Hm. by rewrite (same_binding_matches _ _ Hsame), Hm2.
    * intros i i' j' Hi Hi' _ Hcur _ _. exfalso. apply Hcur.
      congruence.
Qed.

(** * One iteration of the monitor *)

Lemma reads_follow_seek_plain last tr rest :
  Forall (λ e, plain e = true) tr →
  reads_follow_seek last (tr ++ rest) = reads_follow_seek last rest.
Proof.
  induction 1 as [|e tr He _ IH]; [done|]. by destruct e.
Qed.

Lemma alert_spec env keyword line s :
  wp (alert env keyword line) s (λ o s' tr,
    o ≠ Pending ∧
    same_files s s' ∧
    (benign_net (net env) → catchable o) ∧
    lines_read tr = [] ∧
    (∀ last rest, reads_follow_seek last (tr ++ rest)
                  = reads_follow_seek last rest) ∧
    alert_sent keyword line (net env) s tr).
Proof.
  unfold alert, alert_sent. destruct (contains keyword line); wp_steps.
  2:{ by split_and!. }
  assert (wp (fan_out (net env) (alert_prefix ++ strip line)) s
            (λ o _ _, undisturbed (net env) s → o = Return tt)) as Hcomplete.
  { intros Hu. by destruct (fan_out_complete (net env)
                              (alert_prefix ++ strip line) s Hu). }
  eapply wp_mono; [apply wp_conj; [apply fan_out_facts|exact Hcomplete]|].
  intros o s' tr
    [(Hnp & Hs & Hb & Hp & Hl & (body & -> & Hbody) & k & Hk & Hret) Hu].
  split_and!; try done.
  - intros last rest. simpl. rewrite <- app_assoc.
    by rewrite reads_follow_seek_plain.
  - exists k. split; [done|]. intros H. by apply Hret, Hu.
Qed.

Lemma tick_body_spec CONFIG keyword env s :
  wp (tick_body CONFIG keyword env) s (λ o s' tr,
    o ≠ Pending ∧
    (benign env → catchable o) ∧ tick_post keyword env s s' tr).
Proof.
  unfold tick_body. wp_step.
  eapply wp_mono; [apply next_line_spec|].
  intros o s1 tr1 (Hnp & Hc & Hcl & Hsd & Hpa & Hb & Hl & Hseek & Hm & Hre).
  destruct o as [[l|]|e|]; wp_steps; [| | |done].
  - destruct Hl as [Hne Hl].
    eapply wp_mono; [apply alert_spec|].
    intros o s2 tr2 (Hnp2 & (_ & _ & Hi & Hh) & Hb2 & Hl2 & Hseek2 & Ha).
    split; [done|].
    split; [by intros [_ ?]; apply Hb2|]. split_and!.
    + left. exists l. split; [done|].
      rewrite lines_read_app, Hl, Hl2. split; [done|].
      unfold alert_sent in *. rewrite sends_app, passes_app, Hsd, Hpa.
      unfold undisturbed in *. rewrite Hc in Ha. exact Ha.
    + intros last Hlast. destruct (Hseek last Hlast) as (last' & H1 & H2).
      exists last'. split.
      * intros rest. by rewrite <- app_assoc, H1, Hseek2.
      * unfold seek_inv. by rewrite Hh.
    + intros Hk Hs. unfold handle_matches_inode. rewrite Hi, Hh.
      by apply Hm.
    + unfold reopens. rewrite Hi, Hh. exact Hre.
  - split; [done|]. split; [done|].
    rewrite app_nil_r. split_and!; [right|..]; done.
  - split; [done|]. split; [by intros [? _]; apply Hb|].
    split_and!; [right|..]; done.
Qed.

Lemma tick_finally_spec s :
  wp tick_finally s (λ o s' tr,
    o = Return tt ∧ tr = [] ∧
    clients s' = clients s ∧ closed s' = closed s ∧
    file_handle s' = file_handle s ∧
    match file_handle s with
    | Some h => if f_closed h then current_inode s' = None
                else current_inode s' = current_inode s
    | None => current_inode s' = current_inode s
    end).
Proof.
  unfold tick_finally. wp_steps.
  destruct (file_handle s) as [h|] eqn:Hh; wp_steps; [|done].
  destruct (f_closed h) eqn:Hc; wp_steps; simpl; by rewrite ?Hc.
Qed.

Lemma tick_spec CONFIG keyword env s :
  wp (tick CONFIG keyword env) s (λ o s' tr,
    (benign env → o = Return tt) ∧
    tick_post keyword env s s' tr ∧
    (∀ h, file_handle s' = Some h → f_closed h = true →
          current_inode s' = None)).
Proof.
  unfold tick. wp_step. wp_step.
  eapply wp_mono; [apply tick_body_spec|].
  intros o s1 tr1 (Hnp & Hb & Hsent & Hseek & Hm & Hre).
  assert (∀ (o1 : outcome unit) tr0,
    (benign env → o1 = Return tt) →
    tr0 = [] ∨ tr0 = [Log ERROR; Sleep (monitor_poll_interval CONFIG)] →
    wp tick_finally s1 (λ o2 s2 tr2,
      (benign env →
       match o2 with Return _ => o1 | Raise e => Raise e
                     | Pending => Pending end = Return tt) ∧
      tick_post keyword env s s2 ((tr1 ++ tr0) ++ tr2) ∧
      (∀ h, file_handle s2 = Some h → f_closed h = true →
            current_inode s2 = None))) as Hfin.
  2:{ destruct o as [[]|e|]; cbn iota.
      - eapply wp_mono; [apply (Hfin (Return tt) []); auto|].
        intros o2 s2 tr2 (H1 & H2 & H3). rewrite app_nil_r in H2. done.
      - simpl dispatch. destruct (is_Exception e) eqn:He; wp_steps.
        + eapply wp_mono; [apply (Hfin (Return tt)); auto|].
          intros o2 s2 tr2 (H1 & H2 & H3). simpl in *. done.
        + eapply wp_mono; [apply (Hfin (Raise e) [])|].
          * intros Hbe. specialize (Hb Hbe). simpl in Hb. congruence.
          * by left.
          * intros o2 s2 tr2 (H1 & H2 & H3). by rewrite !app_nil_r in *.
      - done. }
  intros o1 tr0 Ho1 Htr0.
  eapply wp_mono; [apply tick_finally_spec|].
  intros o2 s2 tr2 (-> & -> & Hc & Hcl & Hh & Hi). rewrite app_nil_r.
  assert (sends (tr1 ++ tr0) = sends tr1 ∧ passes (tr1 ++ tr0) = passes tr1 ∧
          lines_read (tr1 ++ tr0) = lines_read tr1 ∧
          ∀ last rest, reads_follow_seek last (tr0 ++ rest)
                       = reads_follow_seek last rest) as (Hs0 & Hp0 & Hl0 & Hr0).
  { rewrite sends_app, passes_app, lines_read_app.
    destruct Htr0 as [-> | ->]; simpl; by rewrite ?app_nil_r. }
  split_and!.
  - exact Ho1.
  - unfold tick_post, alert_sent in *. rewrite Hs0, Hp0, Hl0.
    split_and!; [exact Hsent| | |].
    + intros last Hlast. destruct (Hseek last Hlast) as (last' & H1 & H2).
      exists last'. split.
      * intros rest. by rewrite <- app_assoc, H1, Hr0.
      * unfold seek_inv. by rewrite Hh.
    + intros Hk Hs. specialize (Hm Hk Hs).
      unfold handle_matches_inode in *. rewrite Hh.
      destruct (file_handle s1) as [h|]; [|done].
      destruct (f_closed h); [done|]. by rewrite Hi.
    + intros i i' j H1 H2 H3 H4 H5 H6.
      destruct (Hre i i' j H1 H2 H3 H4 H5 H6) as (Hcur & pos & Hpos).
      rewrite Hpos in Hi. simpl in Hi. rewrite Hh, Hi. eauto.
  - intros h Hh' Hclosed. rewrite Hh in Hh'. rewrite Hh' in Hi.
    by rewrite Hclosed in Hi.
Qed.

(** * The monitor loop *)

Lemma monitor_loop_pending CONFIG keyword envs s :
  Forall benign envs →
  wp (while_true envs (λ env, tick CONFIG keyword env ;; mret false)) s
    (λ o _ _, o = Pending).
Proof.
  intros Hb. revert s. induction Hb as [|env envs He _ IH]; intros s.
  - done.
  - simpl while_true. wp_step. wp_step.
    eapply wp_mono; [apply tick_spec|].
    intros o s1 tr1 (Ho & _). rewrite (Ho He). wp_steps. apply IH.
Qed.

Lemma monitor_loop_reads CONFIG keyword envs s :
  wp (while_true envs (λ env, tick CONFIG keyword env ;; mret false)) s
    (λ _ _ tr, ∀ last, seek_inv s last → reads_follow_seek last tr = true).
Proof.
  revert s. induction envs as [|env envs IH]; intros s.
  - done.
  - simpl while_true. wp_step. wp_step.
    eapply wp_mono; [apply tick_spec|].
    intros o s1 tr1 (_ & (_ & Hseek & _) & _).
    assert (∀ last, seek_inv s last → reads_follow_seek last tr1 = true)
      as Hend.
    { intros last Hlast. destruct (Hseek last Hlast) as (last' & H1 & _).
      specialize (H1 []). by rewrite app_nil_r in H1. }
    destruct o as [[]|e|]; [|done..]. wp_steps.
    eapply wp_mono; [apply IH|].
    intros o2 s2 tr2 Hrest last Hlast.
    destruct (Hseek last Hlast) as (last' & H1 & H2).
    rewrite app_nil_r, H1. by apply Hrest.
Qed.



(** A line with the keyword is alerted on once, with the stripped line
    after the prefix, however often the keyword occurs in it. *)
Example alert_for_a_line_with_two_matches :
  sends (out (tick default_config (u "LoggedIn")
                (appended (u "  LoggedIn LoggedIn " ++ [10%N])) tailing))
  = [(2, u "Keyword alert: LoggedIn LoggedIn");
     (3, u "Keyword alert: LoggedIn LoggedIn");
     (1, u "Keyword alert: LoggedIn LoggedIn")].
Proof. vm_compute. reflexivity. Qed.

(** The match is case-sensitive. *)
Example no_alert_for_another_case :
  out (tick default_config (u "LoggedIn")
         (appended (u "user bob loggedin" ++ [10%N])) tailing)
  = [ReadLine 7%N 8 (u "user bob loggedin" ++ [10%N])].
Proof. vm_compute. reflexivity. Qed.

(** * (Re)opening *)

(** C2: a (re)open, when [open] succeeds, closes the previous handle if
    there is one, opens the file the path names, records the inode
    [os.stat] returned, and seeks to the end of the file; an iteration
    (re)opens whenever the inode [os.stat] returns is not [current_inode];
    in every run of the monitor each [readline()] reads the file of the
    latest (re)open at or after the offset that (re)open sought to; and
    what other processes do never changes the text below an offset. *)
Theorem reopen_skips_existing_content CONFIG keyword :
  (∀ env st_ino s j,
     open_fault env = None →
     path_after (fs_before_open env) (path_ino s) = Some j →
     let r := reopen env st_ino s in
     res r = Return tt ∧
     file_handle (post r)
     = Some (FileObj j (length (content (post r) j)) false) ∧
     current_inode (post r) = Some st_ino ∧
     out r = closing_events (file_handle s)
             ++ [OpenFile j; Log INFO;
                 SeekEnd j (length (content (post r) j))]) ∧
  (∀ env s, reopens env s (post (tick CONFIG keyword env s))) ∧
  (∀ envs s,
     reads_follow_seek None
       (out (watch_log_file_by_inode CONFIG keyword envs s)) = true) ∧
  (∀ ops s i, ∃ more, content (foldl apply_op s ops) i = content s i ++ more).
Proof.
  split_and!.
  - intros env st_ino s j Hfault Hj. cbn zeta.
    pose proof (reopen_spec env st_ino s) as H. unfold wp in H.
    destruct H as (_ & _ & H).
    destruct (res (reopen env st_ino s)) as [[]|e|]; [| |done].
    + destruct H as (j' & Hh & Hi & Hj' & Hout).
      assert (j' = j) as -> by congruence. done.
    + destruct H as (_ & _ & _ & [He|[_ He]]); congruence.
  - intros env s. by destruct (tick_spec CONFIG keyword env s)
      as (_ & (_ & _ & _ & H) & _).
  - intros envs s.
    wp_start (watch_log_file_by_inode CONFIG keyword envs) s.
    unfold watch_log_file_by_inode. wp_steps.
    eapply wp_mono; [apply monitor_loop_reads|].
    intros o s' tr H. simpl. apply H. by intros h [=].
  - intros ops s i. by destruct (apply_ops_drift ops s) as [(_&_&_&_&H) _].
Qed.

Lemma reopen_skips_existing_content_witness :
  let r := reopen (still []) 8%N
             (set_path_ino (Some 8%N) rotated) in
  res r = Return tt ∧
  file_handle (post r) = Some (FileObj 8%N 15 false) ∧
  current_inode (post r) = Some 8%N ∧
  out r = [Log INFO; CloseFile 7%N; OpenFile 8%N; Log INFO; SeekEnd 8%N 15].
Proof.
  exact (proj1 (reopen_skips_existing_content default_config [])
           (still []) 8%N (set_path_ino (Some 8%N) rotated) 8%N
           eq_refl eq_refl).
Defined.

(** After a rotation the monitor alerts on the line appended after its
    reopen, and on no line the new or the old file held before. *)
Example rotation_alerts_only_on_later_lines :
  sends (out (watch_log_file_by_inode default_config (u "LoggedIn")
                rotation rotated))
  = [(1, u "Keyword alert: LoggedIn late")].
Proof. vm_compute. reflexivity. Qed.

(** * The monitor never exits *)

(** C7: the monitor loop is still running after any number of iterations
    in which the exceptions raised are instances of [Exception]; an
    exception raised in the [try] body of an iteration is logged and
    followed by a sleep of one poll interval, and the iteration ends
    normally; after every iteration a closed handle goes with a reset
    [current_inode]; and from a reset [current_inode] the next iteration
    in which the path names a file and [os.stat] and [open] succeed leaves
    a handle open on that file. *)
Theorem monitor_never_exits CONFIG keyword :
  (∀ envs s,
     Forall benign envs →
     res (watch_log_file_by_inode CONFIG keyword envs s) = Pending) ∧
  (∀ env s e,
     res (tick_body CONFIG keyword env s) = Raise e →
     is_Exception e = true →
     res (tick CONFIG keyword env s) = Return tt ∧
     out (tick CONFIG keyword env s)
     = out (tick_body CONFIG keyword env s)
       ++ [Log ERROR; Sleep (monitor_poll_interval CONFIG)]) ∧
  (∀ env s h,
     file_handle (post (tick CONFIG keyword env s)) = Some h →
     f_closed h = true →
     current_inode (post (tick CONFIG keyword env s)) = None) ∧
  (∀ env s i i' j,
     current_inode s = None →
     path_after (fs_before_exists env) (path_ino s) = Some i →
     path_after (fs_before_stat env) (Some i) = Some i' →
     path_after (fs_before_open env) (Some i') = Some j →
     stat_fault env = None →
     open_fault env = None →
     current_inode (post (tick CONFIG keyword env s)) = Some i' ∧
     ∃ pos, file_handle (post (tick CONFIG keyword env s))
            = Some (FileObj j pos false)).
Proof.
  split_and!.
  - intros envs s Hb.
    wp_start (watch_log_file_by_inode CONFIG keyword envs) s.
    unfold watch_log_file_by_inode. wp_steps.
    by apply monitor_loop_pending.
  - intros env s e Hres He.
    wp_start (tick CONFIG keyword env) s.
    unfold tick. wp_step. wp_step. unfold wp at 1. rewrite Hres.
    simpl dispatch. rewrite He. wp_steps.
    eapply wp_mono; [apply tick_finally_spec|].
    intros o s' tr (-> & -> & _). by rewrite app_nil_r.
  - intros env s h.
    destruct (tick_spec CONFIG keyword env s) as (_ & _ & H). apply H.
  - intros env s i i' j Hcur Hi Hi' Hj Hstat Hopen.
    destruct (tick_spec CONFIG keyword env s) as (_ & (_ & _ & _ & H) & _).
    apply (H i i' j); try done. by rewrite Hcur.
Qed.

Lemma benign_mishaps : Forall benign mishaps.
Proof.
  repeat (apply List.Forall_cons); try apply List.Forall_nil.
  all: split;
    [ intros e [H|[H|H]]; simpl in H;
      first [discriminate H | by injection H as <-]
    | intros c e [H|H]; simpl in H; try discriminate H ].
  destruct (decide (c = 2)); [by injection H as <-|discriminate H].
Qed.

Lemma monitor_never_exits_witness :
  res (watch_log_file_by_inode default_config (u "LoggedIn") mishaps tailing)
  = Pending.
Proof.
  exact (proj1 (monitor_never_exits default_config (u "LoggedIn"))
           mishaps tailing benign_mishaps).
Defined.

(** What the monitor does through these five iterations. *)
Example monitor_survives_mishaps :
  out (watch_log_file_by_inode default_config (u "LoggedIn") mishaps tailing)
  = [OpenFile 7%N; Log INFO; SeekEnd 7%N 8; ReadLine 7%N 8 []; Sleep 1;
     Log WARNING; Sleep 1;
     Log ERROR; Sleep 1;
     Log INFO; CloseFile 7%N; Log ERROR; Sleep 1;
     Log INFO; OpenFile 7%N; Log INFO; SeekEnd 7%N 8;
     ReadLine 7%N 8 bob; Log INFO;
     Acquire client_lock; RegIter; Send 2 (alert_prefix ++ strip bob);
     Log WARNING; Release client_lock; Log ERROR; Sleep 1].
Proof. vm_compute. reflexivity. Qed.

(** * The invariant without the race *)

(** When the path is not replaced between [os.stat] and [open], an
    iteration keeps the invariant of the watcher state. *)
Lemma tick_keeps_invariant_without_race CONFIG keyword env s :
  only_appends (fs_before_open env) = true →
  handle_matches_inode s = true →
  handle_matches_inode (post (tick CONFIG keyword env s)) = true.
Proof.
  intros Hk Hs.
  destruct (tick_spec CONFIG keyword env s) as (_ & (_ & _ & H & _) & _).
  by apply H.
Qed.

(** * The threads that keep the lock discipline *)

Lemma lock_discipline_plain held tr rest :
  Forall (λ e, plain e = true) tr →
  lock_discipline (client_lock :: held) (tr ++ rest)
  = lock_discipline (client_lock :: held) rest.
Proof.
  induction 1 as [|e tr He _ IH]; [done|].
  destruct e; try done; simpl; rewrite bool_decide_eq_true_2;
    try apply IH; apply list_elem_of_here.
Qed.

(** Both fan-out paths snapshot and prune the registry under
    [client_lock], whatever the network does. *)
Lemma fan_out_lock_discipline env msg s :
  lock_discipline [] (out (fan_out env msg s)) = true.
Proof.
  destruct (fan_out_facts env msg s)
    as (_ & _ & _ & _ & _ & (body & -> & Hbody) & _).
  change (lock_discipline [client_lock]
            ([RegIter] ++ body ++ [Release client_lock]) = true).
  rewrite lock_discipline_plain by plain_trace.
  by rewrite lock_discipline_plain.
Qed.

(** The acceptor adds a connection under [client_lock]. *)
Lemma accept_step_lock_discipline a s :
  lock_discipline [] (out (accept_step a s)) = true.
Proof.
  destruct a as [r [c|e]|e]; [done| |done].
  by destruct e.
Qed.

(** * What a fan-out pass never does *)

(** From [s] to [s'] the registry has only lost clients, no socket was
    reopened, and every client that left the registry is closed. *)
Definition shrinks (s s' : sys) : Prop :=
  clients s' ⊆ clients s ∧ closed s ⊆ closed s' ∧
  ∀ c, c ∈ clients s → c ∉ clients s' → c ∈ closed s'.

Lemma shrinks_refl s : shrinks s s.
Proof. split_and!; [done|done|]. by intros c ? ?. Qed.

Lemma shrinks_trans s1 s2 s3 : shrinks s1 s2 → shrinks s2 s3 → shrinks s1 s3.
Proof.
  intros (H1 & H2 & H3) (H4 & H5 & H6). split_and!; [set_solver|set_solver|].
  intros c Hc Hn. destruct (decide (c ∈ clients s2)) as [Hin|Hout].
  - by apply H6.
  - apply H5. by apply H3.
Qed.

Lemma shrinks_prune c s : shrinks s (prune c s).
Proof.
  unfold shrinks, prune. simpl. split_and!; [set_solver|set_solver|].
  intros c' Hc' Hn. destruct (decide (c' = c)) as [->|Hne]; set_solver.
Qed.

Lemma send_or_prune_shrinks env msg c s :
  wp (send_or_prune env msg c) s (λ _ s' _, shrinks s s').
Proof.
  unfold send_or_prune, sendall, getpeername, clients_remove, conn_close.
  wp_steps.
  destruct (send_exn env c) as [e|]; wp_steps; [|apply shrinks_refl].
  simpl dispatch.
  destruct (is_transport_error e); wp_steps.
  - destruct (peername_exn env c); wp_steps; [apply shrinks_refl|].
    case_decide; wp_steps; [apply shrinks_prune|apply shrinks_refl].
  - destruct (is_Exception e); wp_steps; [|apply shrinks_refl].
    destruct (peername_exn env c); wp_steps; apply shrinks_refl.
Qed.

Lemma pass_shrinks env msg l s :
  wp (for_each l (pass_body env msg)) s (λ _ s' _, shrinks s s').
Proof.
  revert s. induction l as [|c l IH]; intros s; simpl for_each.
  - wp_steps. apply shrinks_refl.
  - wp_step. unfold pass_body at 1, receiver_departs. wp_step.
    assert (∀ s0, shrinks s s0 →
      wp (send_or_prune env msg c) s0 (λ o s1 tr1,
        match o with
        | Return _ => wp (for_each l (pass_body env msg)) s1
                        (λ _ s2 _, shrinks s s2)
        | _ => shrinks s s1
        end)) as H.
    { intros s0 Hs0. eapply wp_mono; [apply send_or_prune_shrinks|].
      intros [[]|e|] s1 tr1 Hs1; [|by eapply shrinks_trans..].
      eapply wp_mono; [apply IH|]. intros o2 s2 tr2 Hs2.
      eapply shrinks_trans; [|exact Hs2]. by eapply shrinks_trans. }
    destruct (departs env c); wp_steps.
    + eapply wp_mono; [apply H, shrinks_prune|].
      intros [[]|e|] s1 tr1 Hs1; [|done..].
      eapply wp_mono; [exact Hs1|]. done.
    + eapply wp_mono; [apply H, shrinks_refl|].
      intros [[]|e|] s1 tr1 Hs1; [|done..].
      eapply wp_mono; [exact Hs1|]. done.
Qed.

(** Whatever the network and the receivers do, a fan-out pass adds no
    client to the registry, closes every client it removes, reopens
    nothing, and sends only its own message, only to clients that were
    registered when it began, at most once each. *)
Theorem fan_out_only_shrinks_registry env msg s :
  let r := fan_out env msg s in
  clients (post r) ⊆ clients s ∧
  closed s ⊆ closed (post r) ∧
  (∀ c, c ∈ clients s → c ∉ clients (post r) → c ∈ closed (post r)) ∧
  (∀ c m, (c, m) ∈ sends (out r) → c ∈ clients s ∧ m = msg) ∧
  NoDup (sends (out r)).
Proof.
  cbn zeta.
  assert (shrinks s (post (fan_out env msg s))) as (H1 & H2 & H3).
  { wp_start (fan_out env msg) s. unfold fan_out. wp_step. wp_step.
    apply wp_clients_list. cbn beta iota.
    eapply wp_mono; [apply pass_shrinks|]. by intros [[]|e|] s' tr Hs. }
  destruct (fan_out_facts env msg s) as (_ & _ & _ & _ & _ & _ & k & Hk & _).
  split_and!; try done.
  - intros c m. rewrite Hk. intros Hin.
    apply list_elem_of_fmap in Hin as (c' & [= -> ->] & Hc').
    split; [|done]. apply elem_of_elements.
    by eapply subseteq_take.
  - rewrite Hk. apply NoDup_fmap_2.
    + by intros c1 c2 [= ->].
    + apply (sublist_NoDup _ (elements (clients s)));
        [apply NoDup_elements|apply sublist_take].
Qed.

(** The lock of a fan-out pass is released however the pass ends, and the
    pass touches the registry only between the acquire and the release. *)
Theorem fan_out_releases_client_lock env msg s :
  ∃ body,
    out (fan_out env msg s)
    = Acquire client_lock :: RegIter :: body ++ [Release client_lock] ∧
    Forall (λ e, plain e = true) body ∧
    lock_discipline [] (out (fan_out env msg s)) = true.
Proof.
  destruct (fan_out_facts env msg s)
    as (_ & _ & _ & _ & _ & (body & Hout & Hbody) & _).
  exists body. split_and!; [done|done|]. apply fan_out_lock_discipline.
Qed.

(** * An [except] clause that raises *)

(** The first client of the snapshot is [c]; the send to it fails and the
    [getpeername()] of the log call of its [except] clause raises [e']. *)
Theorem getpeername_failure_ends_the_pass CONFIG env envs msg s c rest e e' :
  elements (clients s) = c :: rest →
  departs env c = false →
  send_exn env c = Some e →
  is_Exception e = true →
  peername_exn env c = Some e' →
  res (fan_out env msg s) = Raise e' ∧
  post (fan_out env msg s) = s ∧
  out (fan_out env msg s)
  = [Acquire client_lock; RegIter; Send c msg; Release client_lock] ∧
  res (send_keep_alive CONFIG (env :: envs) s) = Raise e' ∧
  out (send_keep_alive CONFIG (env :: envs) s)
  = [Acquire client_lock; RegIter; Send c keep_alive_message;
     Release client_lock].
Proof.
  intros Hel Hdep Hsend He Hpeer.
  assert (∀ m, wp (fan_out env m) s (λ o s' tr,
    o = Raise e' ∧ s' = s ∧
    tr = [Acquire client_lock; RegIter; Send c m; Release client_lock]))
    as Hpass.
  { intros m. unfold fan_out. wp_step. wp_step. apply wp_clients_list.
    cbn beta iota. rewrite Hel. simpl for_each. wp_step.
    unfold pass_body, receiver_departs. rewrite Hdep. wp_steps.
    unfold send_or_prune, sendall, getpeername. rewrite Hsend, Hpeer.
    wp_steps. simpl dispatch.
    destruct (is_transport_error e); wp_steps; [done|].
    rewrite He. wp_steps. done. }
  destruct (Hpass msg) as (H1 & H2 & H3).
  split_and!; try done.
  - wp_start (send_keep_alive CONFIG (env :: envs)) s.
    unfold send_keep_alive. simpl while_true. wp_step. wp_step.
    eapply wp_mono; [apply Hpass|]. by intros o s' tr (-> & -> & ->).
  - wp_start (send_keep_alive CONFIG (env :: envs)) s.
    unfold send_keep_alive. simpl while_true. wp_step. wp_step.
    eapply wp_mono; [apply Hpass|]. by intros o s' tr (-> & -> & ->).
Qed.

(** Every send is reset by the peer, and the sockets no longer know their
    peer. *)
Definition reset_by_peer : net_env :=
  NetEnv (λ _, Some ConnectionResetError) (λ _, Some OSError) (λ _, false).

Lemma getpeername_failure_ends_the_pass_witness :
  res (send_keep_alive default_config [reset_by_peer; calm] one_client)
  = Raise OSError.
Proof.
  exact (proj1 (proj2 (proj2 (proj2
    (getpeername_failure_ends_the_pass default_config reset_by_peer [calm]
       keep_alive_message one_client 1 [] ConnectionResetError OSError
       eq_refl eq_refl eq_refl eq_refl eq_refl))))).
Defined.

(** * The heartbeat *)

Lemma pass_quiet env msg l s :
  (∀ c, c ∈ l → departs env c = false ∧ send_exn env c = None) →
  wp (for_each l (pass_body env msg)) s (λ o s' tr,
    o = Return tt ∧ s' = s ∧ tr = (λ c, Send c msg) <$> l).
Proof.
  revert s. induction l as [|c l IH]; intros s Hq; simpl for_each.
  - wp_steps. done.
  - destruct (Hq c ltac:(left)) as [Hdep Hsend].
    wp_step. unfold pass_body at 1, receiver_departs. rewrite Hdep.
    wp_steps. unfold send_or_prune, sendall. rewrite Hsend. wp_steps.
    eapply wp_mono; [apply IH; intros; apply Hq; by right|].
    by intros o s' tr (-> & -> & ->).
Qed.

(** The events of one heartbeat period when every send succeeds. *)
Definition heartbeat_events (CONFIG : config) (s : sys) : list event :=
  Acquire client_lock :: RegIter ::
  ((λ c, Send c keep_alive_message) <$> elements (clients s))
  ++ [Release client_lock; Sleep (keep_alive_interval CONFIG)].

(** While every send succeeds and no receiver ends, the heartbeat thread
    keeps running, leaves the state as it is, and in each period sends
    ["keep-alive"] once to every registered client and then sleeps for
    [keep_alive_interval]. *)
Theorem heartbeat_reaches_every_client CONFIG envs s :
  Forall (λ env, ∀ c, c ∈ clients s →
                      departs env c = false ∧ send_exn env c = None) envs →
  let r := send_keep_alive CONFIG envs s in
  res r = Pending ∧ post r = s ∧
  out r = flat_map (λ _, heartbeat_events CONFIG s) envs.
Proof.
  intros Hq. wp_start (send_keep_alive CONFIG envs) s.
  unfold send_keep_alive.
  induction Hq as [|env envs He _ IH]; [done|].
  simpl while_true. wp_step. wp_step. unfold fan_out. wp_step. wp_step.
  apply wp_clients_list. cbn beta iota.
  eapply wp_mono.
  { apply pass_quiet. intros c Hc. by apply He, elem_of_elements. }
  intros o s' tr (-> & -> & ->). wp_steps.
  eapply wp_mono; [exact IH|].
  intros o s' tr (-> & -> & ->). split_and!; try done.
  unfold heartbeat_events. simpl. by rewrite <- !app_assoc.
Qed.

Lemma heartbeat_reaches_every_client_witness :
  let r := send_keep_alive default_config [calm; calm] three_clients in
  res r = Pending ∧ post r = three_clients ∧
  out r = flat_map (λ _, heartbeat_events default_config three_clients)
            [calm; calm].
Proof.
  apply (heartbeat_reaches_every_client default_config [calm; calm]
           three_clients).
  repeat (apply List.Forall_cons; [by intros c _|]). apply List.Forall_nil.
Defined.

(** A client pruned by an undisturbed pass is out of the registry and
    closed, and no later pass, whatever the network does, sends to it. *)
Theorem pruned_client_gets_no_more_sends env1 msg1 env2 msg2 s c :
  undisturbed env1 s →
  c ∈ clients s →
  transport_failure env1 c = true →
  let s1 := post (fan_out env1 msg1 s) in
  (c ∉ clients s1) ∧ (c ∈ closed s1) ∧
  (∀ m, (c, m) ∉ sends (out (fan_out env2 msg2 s1))).
Proof.
  intros Hu Hc Ht. cbn zeta.
  destruct (fan_out_complete env1 msg1 s Hu) as (_ & _ & Hpost).
  assert (c ∉ clients (post (fan_out env1 msg1 s))) as Hout.
  { rewrite Hpost, pass_state_clients, elem_of_elements. naive_solver. }
  split_and!; [done| |].
  - rewrite Hpost, pass_state_closed, elem_of_elements. naive_solver.
  - intros m Hm.
    destruct (fan_out_facts env2 msg2 (post (fan_out env1 msg1 s)))
      as (_ & _ & _ & _ & _ & _ & k & Hk & _).
    rewrite Hk in Hm.
    apply list_elem_of_fmap in Hm as (c' & [= -> ->] & Hc').
    apply Hout, elem_of_elements. by eapply subseteq_take.
Qed.

Lemma pruned_client_gets_no_more_sends_witness :
  let s1 := post (fan_out flaky keep_alive_message three_clients) in
  (2 ∉ clients s1) ∧ (2 ∈ closed s1) ∧
  (∀ m, (2, m) ∉ sends (out (fan_out calm keep_alive_message s1))).
Proof.
  apply (pruned_client_gets_no_more_sends flaky keep_alive_message calm
           keep_alive_message three_clients 2).
  - intros c _. split; [reflexivity|]. split; [reflexivity|].
    intros e. simpl. repeat case_decide; intros [= <-]; reflexivity.
  - vm_compute. reflexivity.
  - reflexivity.
Defined.

(** * The accept loop *)

(** As long as every handshake succeeds or fails with an [ssl.SSLError],
    the server keeps accepting: the registry gains exactly the connections
    whose handshake succeeded, each registered under [client_lock] before
    its receiver starts, the raw socket of every failed handshake is
    closed, and no connection is closed. *)
Theorem acceptor_registers_established_connections accepts dep s :
  forallb survivable accepts = true →
  let r := start_server accepts dep s in
  res r = Pending ∧
  clients (post r) = list_to_set (established accepts) ∪ clients s ∧
  closed (post r) = closed s ∧
  out r = [Log INFO; StartThread; StartThread]
          ++ flat_map accept_events accepts.
Proof.
  intros Hs. wp_start (start_server accepts dep) s.
  unfold start_server. wp_steps.
  rewrite <- (app_nil_r accepts) at 1.
  apply accept_loop_prefix; [done|]. intros s1 Hc Hcl.
  simpl while_true. unfold wp. simpl. by rewrite !app_nil_r.
Qed.

Lemma acceptor_registers_established_connections_witness :
  let r := start_server
             [Incoming 1 (Established 7);
              Incoming 2 (HandshakeRaises SSLError);
              Incoming 3 (Established 9)] (λ _, false) idle in
  res r = Pending ∧
  clients (post r) = list_to_set [7; 9] ∪ clients idle ∧
  closed (post r) = closed idle ∧
  out r = [Log INFO; StartThread; StartThread]
          ++ flat_map accept_events
               [Incoming 1 (Established 7);
                Incoming 2 (HandshakeRaises SSLError);
                Incoming 3 (Established 9)].
Proof.
  exact (acceptor_registers_established_connections
           [Incoming 1 (Established 7);
            Incoming 2 (HandshakeRaises SSLError);
            Incoming 3 (Established 9)] (λ _, false) idle eq_refl).
Defined.

(** The exception with which an accepted connection ends the accept loop,
    if it does: whatever [accept] raises, and whatever the handshake raises
    that is not an [ssl.SSLError]. *)
Definition fatal (a : accept_outcome) : option exn :=
  match a with
  | AcceptRaises e => Some e
  | Incoming _ (HandshakeRaises e) => if is_SSLError e then None else Some e
  | Incoming _ (Established _) => None
  end.

(** What the accept loop does for that connection before it ends. *)
Definition fatal_events (a : accept_outcome) : list event :=
  match a with
  | Incoming r _ => [Accept r; Log INFO]
  | AcceptRaises _ => []
  end.

(** An exception other than [KeyboardInterrupt] that leaves the accept
    loop ends [start_server] with that exception, after the [finally]
    block has closed and deregistered every connection and closed the
    listening socket; the raw socket of the failed handshake is not
    closed and nothing is logged for it. *)
Theorem fatal_exception_still_shuts_down pre a rest dep s e :
  forallb survivable pre = true →
  fatal a = Some e →
  is_KeyboardInterrupt e = false →
  (∀ c, dep c = false) →
  let r := start_server (pre ++ a :: rest) dep s in
  let registry := list_to_set (established pre) ∪ clients s in
  res r = Raise e ∧
  clients (post r) = ∅ ∧
  closed (post r) = closed s ∪ registry ∧
  out r = [Log INFO; StartThread; StartThread]
          ++ flat_map accept_events pre
          ++ fatal_events a
          ++ [Acquire client_lock; RegIter]
          ++ flat_map close_events (elements registry)
          ++ [Release client_lock; CloseListener; Log INFO].
Proof.
  intros Hpre Hfatal Hki Hdep.
  wp_start (start_server (pre ++ a :: rest) dep) s.
  unfold start_server. wp_steps.
  apply accept_loop_prefix; [done|]. intros s1 Hc Hcl.
  simpl while_true. wp_step. unfold accept_step.
  destruct a as [r [c|e0]|e0]; simpl in Hfatal; [done| |].
  - destruct (is_SSLError e0) eqn:Hssl; [done|]. injection Hfatal as ->.
    wp_steps. simpl wrap_socket. wp_steps.
    simpl dispatch. rewrite Hssl. wp_steps.
    simpl dispatch. rewrite Hki. wp_steps.
    eapply wp_mono; [apply shutdown_spec; auto|].
    intros o s' tr (-> & -> & Hc' & Hcl'). rewrite Hc', Hcl', Hcl, Hc.
    split_and!; try done. simpl. by rewrite <- !app_assoc, ?app_nil_r.
  - injection Hfatal as ->. wp_steps.
    simpl dispatch. rewrite Hki. wp_steps.
    eapply wp_mono; [apply shutdown_spec; auto|].
    intros o s' tr (-> & -> & Hc' & Hcl'). rewrite Hc', Hcl', Hcl, Hc.
    split_and!; try done. simpl. by rewrite <- !app_assoc, ?app_nil_r.
Qed.

Lemma fatal_exception_still_shuts_down_witness :
  let r := start_server
             [Incoming 1 (Established 7); Incoming 2 (HandshakeRaises OSError);
              Incoming 3 (Established 9)] (λ _, false) idle in
  res r = Raise OSError ∧
  clients (post r) = ∅ ∧
  closed (post r) = closed idle ∪ (list_to_set [7] ∪ clients idle) ∧
  out r = [Log INFO; StartThread; StartThread]
          ++ flat_map accept_events [Incoming 1 (Established 7)]
          ++ [Accept 2; Log INFO]
          ++ [Acquire client_lock; RegIter]
          ++ flat_map close_events
               (elements (list_to_set [7] ∪ clients idle))
          ++ [Release client_lock; CloseListener; Log INFO].
Proof.
  exact (fatal_exception_still_shuts_down
           [Incoming 1 (Established 7)] (Incoming 2 (HandshakeRaises OSError))
           [Incoming 3 (Established 9)] (λ _, false) idle OSError
           eq_refl eq_refl eq_refl (λ _, eq_refl)).
Defined.

(** * A receiver that ends during the shutdown *)

(** The operator interrupts the server, and the receiver of the first
    connection of the shutdown snapshot deregisters it while the shutdown
    block is closing it: [clients.remove] raises [KeyError], so the other
    connections stay registered and open, the listening socket is not
    closed, and [start_server] ends with [KeyError]. *)
Theorem receiver_ending_during_shutdown_aborts_it pre rest dep s c cs :
  forallb survivable pre = true →
  elements (list_to_set (established pre) ∪ clients s) = c :: cs →
  dep c = true →
  let r := start_server (pre ++ AcceptRaises KeyboardInterrupt :: rest)
             dep s in
  res r = Raise KeyError ∧
  clients (post r)
  = (list_to_set (established pre) ∪ clients s) ∖ {[c]} ∧
  closed (post r) = {[c]} ∪ closed s ∧
  out r = [Log INFO; StartThread; StartThread]
          ++ flat_map accept_events pre
          ++ [Log INFO; Acquire client_lock; RegIter; CloseConn c;
              Release client_lock].
Proof.
  intros Hpre Hel Hdep.
  wp_start (start_server (pre ++ AcceptRaises KeyboardInterrupt :: rest) dep) s.
  unfold start_server. wp_steps.
  apply accept_loop_prefix; [done|]. intros s1 Hc Hcl.
  simpl while_true. wp_steps. simpl dispatch. wp_steps.
  unfold shutdown. wp_step. wp_step. wp_step.
  apply wp_clients_list. cbn beta iota. rewrite Hc, Hel.
  simpl for_each. wp_step. wp_step.
  unfold receiver_departs. rewrite Hdep. wp_steps.
  unfold conn_close, clients_remove. wp_steps. simpl.
  case_decide as Hin; [set_solver|]. wp_steps. simpl.
  rewrite Hc, Hcl. split_and!; try done.
  - set_solver.
  - by rewrite <- !app_assoc.
Qed.

Lemma receiver_ending_during_shutdown_aborts_it_witness :
  let r := start_server
             [Incoming 1 (Established 7); AcceptRaises KeyboardInterrupt]
             (λ _, true) idle in
  res r = Raise KeyError ∧
  clients (post r) = (list_to_set [7] ∪ clients idle) ∖ {[7]} ∧
  closed (post r) = {[7]} ∪ closed idle ∧
  out r = [Log INFO; StartThread; StartThread]
          ++ flat_map accept_events [Incoming 1 (Established 7)]
          ++ [Log INFO; Acquire client_lock; RegIter; CloseConn 7;
              Release client_lock].
Proof.
  exact (receiver_ending_during_shutdown_aborts_it
           [Incoming 1 (Established 7)] [] (λ _, true) idle 7 []
           eq_refl eq_refl eq_refl).
Defined.

(** * More on the receiver *)

Lemma recv_loop_pending c datas s :
  forallb delivers datas = true →
  wp (while_true datas (recv_step c)) s (λ o s' tr,
    o = Pending ∧ s' = s ∧ tr = flat_map (λ _, [Recv c; Log INFO]) datas).
Proof.
  intros Hd. revert s. induction datas as [|d datas IH]; intros s.
  - done.
  - simpl in Hd. apply andb_prop in Hd as [Hd Hds].
    simpl while_true. wp_step. unfold recv_step at 1. wp_steps.
    destruct d as [[|b data]|e]; [done| |done]. wp_steps.
    eapply wp_mono; [apply (IH Hds)|].
    by intros o s' tr (-> & -> & ->).
Qed.

(** While every read returns data the receiver keeps reading: it logs each
    chunk, changes nothing, and neither deregisters nor closes its
    connection. *)
Theorem receiver_keeps_reading c datas s :
  forallb delivers datas = true →
  let r := handle_client c None datas s in
  res r = Pending ∧ post r = s ∧
  out r = Log INFO :: flat_map (λ _, [Recv c; Log INFO]) datas.
Proof.
  intros Hd. wp_start (handle_client c None datas) s.
  unfold handle_client, getpeername. wp_steps.
  eapply wp_mono; [by apply recv_loop_pending|].
  by intros o s' tr (-> & -> & ->).
Qed.

Lemma receiver_keeps_reading_witness :
  let r := handle_client 1 None [Recvd [104; 105]%N; Recvd [33]%N]
             one_client in
  res r = Pending ∧ post r = one_client ∧
  out r = Log INFO :: flat_map (λ _, [Recv 1; Log INFO])
                        [Recvd [104; 105]%N; Recvd [33]%N].
Proof.
  exact (receiver_keeps_reading 1 [Recvd [104; 105]%N; Recvd [33]%N]
           one_client eq_refl).
Defined.

(** When the [getpeername()] at the start of the receiver raises, the
    receiver never reads: the [except] clause, whose log message names the
    peer, raises [UnboundLocalError] instead of logging, and the receiver
    ends with it after the [finally] block has deregistered and closed
    the connection. *)
Theorem receiver_without_peername c e recvs s :
  is_Exception e = true →
  let r := handle_client c (Some e) recvs s in
  res r = Raise UnboundLocalError ∧
  out r = deregister_events c (clients s) ∧
  clients (post r) = clients s ∖ {[c]} ∧
  closed (post r) = {[c]} ∪ closed s.
Proof.
  intros He. wp_start (handle_client c (Some e) recvs) s.
  unfold handle_client, getpeername. wp_steps.
  simpl dispatch. rewrite He. wp_steps.
  eapply wp_mono; [apply handle_client_finally_spec|].
  by intros o s' tr (-> & -> & Hc & Hcl).
Qed.

Lemma receiver_without_peername_witness :
  let r := handle_client 1 (Some OSError) [Recvd [104]%N] one_client in
  res r = Raise UnboundLocalError ∧
  out r = deregister_events 1 (clients one_client) ∧
  clients (post r) = clients one_client ∖ {[1]} ∧
  closed (post r) = {[1]} ∪ closed one_client.
Proof.
  exact (receiver_without_peername 1 OSError [Recvd [104]%N] one_client
           eq_refl).
Defined.

(** * More on the monitor *)

(** While the path names nothing, an iteration only logs a warning and
    sleeps for one poll interval: it does not stat, open, read or send,
    and it keeps the handle it has. *)
Theorem monitor_waits_for_missing_file CONFIG keyword env s :
  path_after (fs_before_exists env) (path_ino s) = None →
  let r := tick CONFIG keyword env s in
  res r = Return tt ∧
  out r = [Log WARNING; Sleep (monitor_poll_interval CONFIG)] ∧
  clients (post r) = clients s ∧ closed (post r) = closed s ∧
  file_handle (post r) = file_handle s.
Proof.
  intros Hpath. wp_start (tick CONFIG keyword env) s.
  unfold tick, tick_body, next_line. wp_step. wp_step. wp_step. wp_step.
  apply wp_other_processes. intros s1 (Hc & Hcl & Hi & Hh & _) Hp.
  cbn beta iota. unfold os_path_exists. wp_steps.
  rewrite Hp, Hpath. simpl negb. cbn iota. wp_steps.
  eapply wp_mono; [apply tick_finally_spec|].
  intros o s' tr (-> & -> & Hc' & Hcl' & Hh' & _).
  split_and!; try done; congruence.
Qed.

Lemma monitor_waits_for_missing_file_witness :
  let r := tick default_config (u "LoggedIn") (still [Unlink]) tailing in
  res r = Return tt ∧
  out r = [Log WARNING; Sleep (monitor_poll_interval default_config)] ∧
  clients (post r) = clients tailing ∧ closed (post r) = closed tailing ∧
  file_handle (post r) = file_handle tailing.
Proof.
  exact (monitor_waits_for_missing_file default_config (u "LoggedIn")
           (still [Unlink]) tailing eq_refl).
Defined.

Lemma monitor_loop_matches CONFIG keyword envs s :
  Forall (λ env, only_appends (fs_before_open env) = true) envs →
  handle_matches_inode s = true →
  wp (while_true envs (λ env, tick CONFIG keyword env ;; mret false)) s
    (λ _ s' _, handle_matches_inode s' = true).
Proof.
  intros Hk. revert s. induction Hk as [|env envs He _ IH]; intros s Hs.
  - done.
  - simpl while_true. wp_step. wp_step.
    eapply wp_mono; [apply tick_spec|].
    intros o s1 tr1 (_ & (_ & _ & Hm & _) & _).
    specialize (Hm He Hs).
    destruct o as [[]|e|]; [|done..]. wp_steps.
    eapply wp_mono; [by apply IH|]. done.
Qed.

(** In a run during which the path is never replaced between an [os.stat]
    and the [open] that follows it, the monitor keeps its invariant: an
    open handle is bound to the file whose inode [current_inode] holds. *)
Theorem monitor_keeps_invariant_without_race CONFIG keyword envs s :
  Forall (λ env, only_appends (fs_before_open env) = true) envs →
  handle_matches_inode
    (post (watch_log_file_by_inode CONFIG keyword envs s)) = true.
Proof.
  intros Hk. wp_start (watch_log_file_by_inode CONFIG keyword envs) s.
  unfold watch_log_file_by_inode. wp_steps.
  eapply wp_mono; [by apply monitor_loop_matches|]. done.
Qed.

Lemma monitor_keeps_invariant_without_race_witness :
  handle_matches_inode
    (post (watch_log_file_by_inode default_config (u "LoggedIn")
             rotation rotated)) = true.
Proof.
  apply (monitor_keeps_invariant_without_race default_config (u "LoggedIn")
           rotation rotated).
  repeat (apply List.Forall_cons; [reflexivity|]). apply List.Forall_nil.
Defined.

(** * The keyword test and the payload *)

Lemma startswith_spec k l : startswith k l = true ↔ ∃ b, l = k ++ b.
Proof.
  revert l. induction k as [|a k IH]; intros l; simpl.
  - split; [by exists l|done].
  - destruct l as [|c l].
    + split; [done|]. by intros [b [=]].
    + rewrite andb_true_iff, N.eqb_eq, IH. split.
      * intros [-> [b ->]]. by exists b.
      * intros [b [= -> ->]]. eauto.
Qed.

Lemma contains_spec k l : contains k l = true ↔ ∃ a b, l = a ++ k ++ b.
Proof.
  induction l as [|c l IH]; simpl.
  - rewrite orb_false_r, startswith_spec. split.
    + intros [b Hb]. by exists [], b.
    + intros (a & b & H). destruct a; [by exists b|done].
  - rewrite orb_true_iff, startswith_spec, IH. split.
    + intros [[b Hb]|(a & b & ->)]; [by exists [], b|by exists (c :: a), b].
    + intros ([|c' a] & b & H); [left; by exists b|].
      injection H as -> ->. right. eauto.
Qed.

(** An iteration of the monitor that read a line makes a fan-out pass
    exactly when the line is some text, then the keyword, then some text:
    so an empty keyword alerts on every line, and a keyword that other
    processes wrote in two parts, read in between, on none of the two. *)
Theorem alert_iff_keyword_inside CONFIG keyword env s line :
  lines_read (out (tick CONFIG keyword env s)) = [line] →
  line ≠ [] →
  passes (out (tick CONFIG keyword env s)) = 1
  ↔ ∃ before after, line = before ++ keyword ++ after.
Proof.
  intros Hline Hne. rewrite <- contains_spec.
  destruct (tick_spec CONFIG keyword env s) as (_ & (Hsent & _) & _).
  destruct Hsent as [(l & _ & Hl & Ha)|([Hl|Hl] & _)].
  - rewrite Hline in Hl. injection Hl as <-.
    unfold alert_sent in Ha. destruct (contains keyword line).
    + by destruct Ha.
    + destruct Ha as [_ ->]. done.
  - by rewrite Hline in Hl.
  - rewrite Hline in Hl. by injection Hl as ->.
Qed.

Lemma alert_iff_keyword_inside_witness :
  passes (out (tick default_config [] (appended bob) tailing)) = 1
  ↔ ∃ before after, bob = before ++ [] ++ after.
Proof.
  apply (alert_iff_keyword_inside default_config [] (appended bob) tailing
           bob eq_refl).
  discriminate.
Defined.

Lemma lstrip_spec l :
  ∃ a, l = a ++ lstrip l ∧ forallb isspace a = true ∧
       ∀ c rest, lstrip l = c :: rest → isspace c = false.
Proof.
  induction l as [|c l (a & Hl & Ha & Hhead)]; simpl.
  - by exists [].
  - destruct (isspace c) eqn:Hc.
    + exists (c :: a). simpl. rewrite Hc, Ha. split_and!; try done.
      by rewrite <- Hl.
    + exists []. split_and!; try done. by intros c' rest [= <- _].
Qed.

Lemma forallb_rev {A} (f : A → bool) l :
  forallb f (rev l) = forallb f l.
Proof.
  induction l as [|x l IH]; [done|]. simpl.
  rewrite forallb_app, IH. simpl. rewrite andb_true_r. apply andb_comm.
Qed.

Lemma rstrip_spec l :
  ∃ b, l = rstrip l ++ b ∧ forallb isspace b = true ∧
       ∀ c init, rstrip l = init ++ [c] → isspace c = false.
Proof.
  unfold rstrip. destruct (lstrip_spec (rev l)) as (a & Hl & Ha & Hhead).
  exists (rev a). split_and!.
  - rewrite <- rev_app_distr, <- Hl. by rewrite rev_involutive.
  - by rewrite forallb_rev.
  - intros c init Hr. apply (Hhead c (rev init)).
    rewrite <- (rev_involutive (lstrip (rev l))), Hr, rev_app_distr. done.
Qed.

(** [strip] removes whitespace from both ends of the line and nothing
    else. *)
Lemma strip_spec l :
  ∃ a b, l = a ++ strip l ++ b ∧
         forallb isspace a = true ∧ forallb isspace b = true ∧
         (∀ c rest, strip l = c :: rest → isspace c = false) ∧
         (∀ c init, strip l = init ++ [c] → isspace c = false).
Proof.
  unfold strip. destruct (lstrip_spec l) as (a & Hl & Ha & Hhead).
  destruct (rstrip_spec (lstrip l)) as (b & Hr & Hb & Hlast).
  exists a, b. split_and!; try done.
  - by rewrite <- Hr.
  - intros c rest Hs. rewrite Hs in Hr. by apply (Hhead c (rest ++ b)).
Qed.

(** Every message an iteration of the monitor sends for the line it read
    is ["Keyword alert: "] followed by the line without the whitespace at
    its two ends: the text in between is sent as it is, and the text sent
    neither starts nor ends with whitespace (so never with the newline
    that ends the line). *)
Theorem alert_payload_is_the_trimmed_line CONFIG keyword env s line c m :
  lines_read (out (tick CONFIG keyword env s)) = [line] →
  line ≠ [] →
  (c, m) ∈ sends (out (tick CONFIG keyword env s)) →
  ∃ lead body trail,
    m = alert_prefix ++ body ∧ line = lead ++ body ++ trail ∧
    forallb isspace lead = true ∧ forallb isspace trail = true ∧
    (∀ x rest, body = x :: rest → isspace x = false) ∧
    (∀ x init, body = init ++ [x] → isspace x = false).
Proof.
  intros Hline Hne Hin.
  destruct (tick_spec CONFIG keyword env s) as (_ & (Hsent & _) & _).
  destruct Hsent as [(l & _ & Hl & Ha)|(_ & Hs & _)].
  2:{ rewrite Hs in Hin. by apply not_elem_of_nil in Hin. }
  rewrite Hline in Hl. injection Hl as <-.
  unfold alert_sent in Ha. destruct (contains keyword line).
  - destruct Ha as (_ & k & Hk & _). rewrite Hk in Hin.
    apply list_elem_of_fmap in Hin as (c' & [= -> ->] & _).
    destruct (strip_spec line) as (a & b & H1 & H2 & H3 & H4 & H5).
    exists a, (strip line), b. by split_and!.
  - destruct Ha as [Hs _]. rewrite Hs in Hin.
    by apply not_elem_of_nil in Hin.
Qed.

Lemma alert_payload_is_the_trimmed_line_witness :
  ∃ lead body trail,
    alert_prefix ++ strip bob = alert_prefix ++ body ∧
    bob = lead ++ body ++ trail ∧
    forallb isspace lead = true ∧ forallb isspace trail = true ∧
    (∀ x rest, body = x :: rest → isspace x = false) ∧
    (∀ x init, body = init ++ [x] → isspace x = false).
Proof.
  apply (alert_payload_is_the_trimmed_line default_config (u "LoggedIn")
           (appended bob) tailing bob 2 (alert_prefix ++ strip bob)
           eq_refl ltac:(discriminate)).
  vm_compute. left.
Defined.

(** * No text is skipped or read twice *)

(** Every [readline()] of a trace starts where the previous one on the same
    handle ended, or where the (re)open of the handle sought to; [cur] is
    the file and offset the next read must start at, if a handle is
    open. *)
Fixpoint reads_contiguous (cur : option (inode * nat)) (tr : list event)
    : bool :=
  match tr with
  | [] => true
  | OpenFile _ :: tr' => reads_contiguous None tr'
  | SeekEnd i p :: tr' => reads_contiguous (Some (i, p)) tr'
  | ReadLine i p l :: tr' =>
      match cur with
      | Some (j, q) => bool_decide (i = j) && bool_decide (p = q)
                       && reads_contiguous (Some (i, p + length l)) tr'
      | None => false
      end
  | _ :: tr' => reads_contiguous cur tr'
  end.

(** [cur] is the file and the position of the open handle. *)
Definition pos_inv (s : sys) (cur : option (inode * nat)) : Prop :=
  ∀ h, file_handle s = Some h → f_closed h = false →
       cur = Some (f_ino h, f_pos h).

(** What a step of the monitor does to the next read position. *)
Definition keeps_position (s : sys) (s' : sys) (tr : list event) : Prop :=
  ∀ cur, pos_inv s cur →
    ∃ cur', (∀ rest, reads_contiguous cur (tr ++ rest)
                     = reads_contiguous cur' rest) ∧
            pos_inv s' cur'.

Lemma reads_contiguous_plain cur tr rest :
  Forall (λ e, plain e = true) tr →
  reads_contiguous cur (tr ++ rest) = reads_contiguous cur rest.
Proof. induction 1 as [|e tr He _ IH]; [done|]. by destruct e. Qed.

Lemma keeps_position_trans s1 s2 s3 tr1 tr2 :
  keeps_position s1 s2 tr1 → keeps_position s2 s3 tr2 →
  keeps_position s1 s3 (tr1 ++ tr2).
Proof.
  intros H1 H2 cur Hcur.
  destruct (H1 cur Hcur) as (cur1 & Ha & Hb).
  destruct (H2 cur1 Hb) as (cur2 & Hc & Hd).
  exists cur2. split; [|done]. intros rest.
  by rewrite <- app_assoc, Ha, Hc.
Qed.

Lemma keeps_position_same s s' tr :
  file_handle s' = file_handle s →
  (∀ cur rest, reads_contiguous cur (tr ++ rest) = reads_contiguous cur rest) →
  keeps_position s s' tr.
Proof.
  intros Hh Htr cur Hcur. exists cur. split; [by intros rest|].
  unfold pos_inv. by rewrite Hh.
Qed.

Lemma read_one_line_position CONFIG env s :
  wp (read_one_line CONFIG env) s (λ _ s' tr, keeps_position s s' tr).
Proof.
  unfold read_one_line. wp_step.
  apply wp_other_processes. intros s1 (_ & _ & _ & Hh & _) _.
  cbn beta iota. wp_step. unfold readline. wp_steps. rewrite Hh.
  destruct (file_handle s) as [h|] eqn:Hold; wp_steps.
  2:{ apply keeps_position_same; [by rewrite Hh|done]. }
  destruct (f_closed h) eqn:Hclosed; wp_steps.
  { apply keeps_position_same; [by rewrite Hh|done]. }
  destruct (read_fault env) as [e|]; wp_steps.
  { apply keeps_position_same; [by rewrite Hh|done]. }
  assert (∀ line tl, Forall (λ e, plain e = true) tl →
    keeps_position s
      (set_file_handle
         (Some (FileObj (f_ino h) (f_pos h + length line) false)) s1)
      ((([] ++ [ReadLine (f_ino h) (f_pos h) line]) ++ []) ++ tl)) as Hread.
  { intros line tl Htl cur Hcur. rewrite (Hcur h Hold Hclosed).
    exists (Some (f_ino h, f_pos h + length line)). split.
    - intros rest. simpl. rewrite !bool_decide_eq_true_2 by done. simpl.
      by apply reads_contiguous_plain.
    - by intros h' [= <-] _. }
  destruct (take_line (drop (f_pos h) (content s1 (f_ino h))))
    as [|b line] eqn:Hline; wp_steps.
  - apply (Hread [] [Sleep (monitor_poll_interval CONFIG)]). plain_trace.
  - rewrite <- (app_nil_r (_ ++ [])). apply (Hread (b :: line) []).
    plain_trace.
Qed.
